(** * Daring Divas curator: similarity classification and reconciliation

    A shallow embedding of [curator.js].  JavaScript strings are modelled
    as [string] (sequences of character codes), plain objects as
    association lists in property-creation order, and the asynchronous
    script as a state-and-exception monad over an abstract outside world
    (the gist, the chain, the metadata and image hosts, the file system).
    The two helper scripts, [generate-hashes.js] and [download-images.js],
    are embedded with the state passed along explicitly. *)

From Stdlib Require Import String Ascii List Arith Lia Bool NArith.
From Stdlib Require Import Permutation Sorting.Sorted.
Import ListNotations.
Open Scope string_scope.

(** ** Completions

    A JavaScript call either completes normally with a value or throws. *)

Inductive js_error : Type :=
  | TypeError (message : string)
  | SyntaxError (message : string)
  | Error (message : string).

Inductive completion (A : Type) : Type :=
  | Normal (a : A)
  | Throw (e : js_error).

Arguments Normal {A} a.
Arguments Throw {A} e.

(** ** The similarity comparator *)

Module Comparator.

(** [s[i]] on a string: the character at [i], or [undefined] (here
    [None]) when [i] is out of range. *)
Definition js_index (s : string) (i : nat) : option ascii := String.get i s.

(** [x !== y] on values that are a one-character string or [undefined]. *)
Definition strict_neq (x y : option ascii) : bool :=
  match x, y with
  | Some c, Some d => negb (Ascii.eqb c d)
  | None, None => false
  | _, _ => true
  end.

(** The body of the [for] loop of [calculateHammingDistance]: [steps]
    iterations remain, [i] is the loop index and [distance] the counter. *)
Fixpoint hamming_for (hash1 hash2 : string) (steps i distance : nat) : nat :=
  match steps with
  | O => distance
  | S steps' =>
      hamming_for hash1 hash2 steps' (S i)
        (if strict_neq (js_index hash1 i) (js_index hash2 i)
         then S distance else distance)
  end.

(** [for (let i = 0; i < hash1.length; i++)]: exactly [hash1.length]
    iterations, from [i = 0] and [distance = 0]. *)
Definition calculateHammingDistance (hash1 hash2 : string) : nat :=
  hamming_for hash1 hash2 (String.length hash1) 0 0.

(** The call seen as a completion.  The body has no [throw], and
    [.length], indexing, [!==] and [++] all complete normally on strings,
    so the call completes normally with the counter. *)
Definition call_calculateHammingDistance (hash1 hash2 : string)
  : completion nat :=
  Normal (calculateHammingDistance hash1 hash2).

(** The Hamming distance in the words of the specification: the count of
    positions where the two signatures differ.  The two strings are walked
    together and their characters compared with [Ascii.eqb]; a position of
    [a] at which [b] has no character left counts as a difference, and
    characters of [b] past the end of [a] are not looked at.  It is written
    without [js_index], [strict_neq] or the loop, as the measure the loop is
    compared with. *)
Fixpoint count_diff (a b : string) : nat :=
  match a with
  | EmptyString => 0
  | String c a' =>
      match b with
      | EmptyString => S (count_diff a' EmptyString)
      | String d b' => (if Ascii.eqb c d then 0 else 1) + count_diff a' b'
      end
  end.

(** The prefix of [a] that overlaps [b]. *)
Definition overlap (a b : string) : string :=
  String.substring 0 (String.length b) a.

End Comparator.

(** ** JavaScript values used by the script *)

Module JS.

(** *** Sorting

    [insert_sorted] and [insertion_sort] are a stable sort by a boolean
    "less than or equal" test.  It stands both for the numeric ordering of
    array-index keys of an object and for [Array.prototype.sort]. *)

Section Sort.
Context {A : Type}.
Variable leb : A -> A -> bool.

Fixpoint insert_sorted (x : A) (l : list A) : list A :=
  match l with
  | [] => [x]
  | y :: l' => if leb x y then x :: l else y :: insert_sorted x l'
  end.

Fixpoint insertion_sort (l : list A) : list A :=
  match l with
  | [] => []
  | x :: l' => insert_sorted x (insertion_sort l')
  end.
End Sort.

(** [Array.prototype.sort()] with no comparator on an array of strings:
    ascending order of the strings compared unit by unit. *)
Definition Array_sort (a : list string) : list string :=
  insertion_sort String.leb a.

(** *** Plain objects

    The own enumerable properties of an object, in creation order. *)
Definition jsobject (V : Type) : Type := list (string * V).

(** [o[k]], [None] standing for [undefined]. *)
Definition obj_get {V} (o : jsobject V) (k : string) : option V :=
  match find (fun p => String.eqb (fst p) k) o with
  | Some p => Some (snd p)
  | None => None
  end.

(** [o[k] = v]: an existing property keeps its place, a new one is
    created last. *)
Fixpoint obj_set {V} (o : jsobject V) (k : string) (v : V) : jsobject V :=
  match o with
  | [] => [(k, v)]
  | (k', v') :: o' =>
      if String.eqb k' k then (k', v) :: o' else (k', v') :: obj_set o' k v
  end.

Definition is_digit (c : ascii) : bool :=
  (48 <=? N_of_ascii c)%N && (N_of_ascii c <=? 57)%N.

Fixpoint digits_value (s : string) (acc : N) : option N :=
  match s with
  | EmptyString => Some acc
  | String c s' =>
      if is_digit c
      then digits_value s' (10 * acc + (N_of_ascii c - 48))%N
      else None
  end.

(** A key is an array index when it is the canonical decimal string of an
    integer between 0 and 2^32 - 2. *)
Definition array_index (k : string) : option N :=
  match k with
  | EmptyString => None
  | String c rest =>
      if Ascii.eqb c "0" && negb (String.eqb rest EmptyString) then None
      else match digits_value k 0 with
           | Some n => if (n <? 4294967295)%N then Some n else None
           | None => None
           end
  end.

Definition index_entries {V} (o : jsobject V) : list (N * (string * V)) :=
  flat_map (fun p => match array_index (fst p) with
                     | Some n => [(n, p)]
                     | None => []
                     end) o.

Definition string_entries {V} (o : jsobject V) : list (string * V) :=
  filter (fun p => match array_index (fst p) with
                   | Some _ => false
                   | None => true
                   end) o.

(** The order in which [for ... in] and [Object.keys] visit the own
    properties: array-index keys in ascending numeric order, then the
    other keys in creation order. *)
Definition own_entries {V} (o : jsobject V) : list (string * V) :=
  map snd (insertion_sort (fun p q => N.leb (fst p) (fst q)) (index_entries o))
  ++ string_entries o.

Definition Object_keys {V} (o : jsobject V) : list string :=
  map fst (own_entries o).

(** *** JSON.stringify *)

Definition dquote : ascii := "034"%char.
Definition backslash : ascii := "092"%char.

Definition hex_digit (n : N) : ascii :=
  if (n <? 10)%N then ascii_of_N (48 + n) else ascii_of_N (87 + n).

(** [QuoteJSONString], one character: the two-character escapes, the
    [\u00XX] form for the other control characters, everything else
    verbatim. *)
Definition escape_char (c : ascii) : string :=
  let n := N_of_ascii c in
  if (n =? 8)%N then String backslash "b"
  else if (n =? 9)%N then String backslash "t"
  else if (n =? 10)%N then String backslash "n"
  else if (n =? 12)%N then String backslash "f"
  else if (n =? 13)%N then String backslash "r"
  else if (n =? 34)%N then String backslash (String dquote EmptyString)
  else if (n =? 92)%N then String backslash (String backslash EmptyString)
  else if (n <? 32)%N then
    String backslash
      (String "u" (String "0" (String "0"
         (String (hex_digit (n / 16)) (String (hex_digit (n mod 16))
            EmptyString)))))
  else String c EmptyString.

Fixpoint escape (s : string) : string :=
  match s with
  | EmptyString => EmptyString
  | String c s' => escape_char c ++ escape s'
  end.

Definition QuoteJSONString (s : string) : string :=
  String dquote (escape s ++ String dquote EmptyString).

(** [JSON.stringify(a)] for an array of strings, without indentation. *)
Definition JSON_stringify_array (a : list string) : string :=
  "[" ++ String.concat "," (map QuoteJSONString a) ++ "]".

(** [JSON.stringify(o, null, 2)] for a flat object of booleans. *)
Definition JSON_stringify_object {V} (show : V -> string) (o : jsobject V)
  : string :=
  match own_entries o with
  | [] => "{}"
  | entries =>
      String "{" (String "010"
        (String.concat (String "," (String "010" EmptyString))
           (map (fun p => "  " ++ QuoteJSONString (fst p) ++ ": "
                          ++ show (snd p)) entries)
         ++ String "010" "}"))
  end.

Definition show_bool (b : bool) : string := if b then "true" else "false".

(** *** Reading a quoted character back

    [unescape_one] reads one character of the body of a quoted string,
    undoing [escape_char]; it stops at the closing quote.  It serves to
    show that [JSON.stringify] tells different arrays of strings apart. *)

Definition hex_value (c : ascii) : option N :=
  let n := N_of_ascii c in
  if (48 <=? n)%N && (n <=? 57)%N then Some (n - 48)%N
  else if (97 <=? n)%N && (n <=? 102)%N then Some (n - 87)%N
  else None.

Definition unescape_one (s : string) : option (ascii * string) :=
  match s with
  | EmptyString => None
  | String c s' =>
      if Ascii.eqb c dquote then None
      else if Ascii.eqb c backslash then
        match s' with
        | EmptyString => None
        | String e s'' =>
            if Ascii.eqb e "b" then Some (ascii_of_N 8, s'')
            else if Ascii.eqb e "t" then Some (ascii_of_N 9, s'')
            else if Ascii.eqb e "n" then Some (ascii_of_N 10, s'')
            else if Ascii.eqb e "f" then Some (ascii_of_N 12, s'')
            else if Ascii.eqb e "r" then Some (ascii_of_N 13, s'')
            else if Ascii.eqb e dquote then Some (dquote, s'')
            else if Ascii.eqb e backslash then Some (backslash, s'')
            else if Ascii.eqb e "u" then
              match s'' with
              | String _ (String _ (String h1 (String h2 s3))) =>
                  match hex_value h1, hex_value h2 with
                  | Some a, Some b => Some (ascii_of_N (16 * a + b), s3)
                  | _, _ => None
                  end
              | _ => None
              end
            else None
        end
      else Some (c, s')
  end.

End JS.

(** ** The curator run

    [runCurator] of [curator.js] with [getCurrentCensoredList].  A later
    revision of the script reads the token from another variable and, after
    a successful update, also appends a line to the output file of the
    workflow; the helper functions and the rest of the run are the same. *)

Module Curator.
Import Comparator JS.

(** *** Configuration *)

Definition SIMILARITY_THRESHOLD : nat := 5.
Definition GIST_FILENAME : string := "censored-list.json".

(** *** Data handed over by the collaborators *)

(** An item of the collection: [nft.tokenId] and the optional
    [nft.tokenUri]. *)
Record nft : Type := { tokenId : string; tokenUri : option string }.

(** The body of a metadata response and the response itself; [None] is a
    missing ([undefined] or [null]) member. *)
Record metadata : Type := { image : option string }.
Record metadata_response : Type := { metadata_data : option metadata }.

(** A decoded image; [pHash] is the outcome of calling [image.pHash()]. *)
Record jimp_image : Type := { pHash : completion string }.

(** The gist document: [response.data.files[name].content]. *)
Record gist_file : Type := { content : string }.
Record gist_data : Type := { files : option (jsobject gist_file) }.
Record gist_response : Type := { data : option gist_data }.

(** The test [if (!x) ... else ...] on a value that is a string or
    missing: [None] when [x] is falsy (missing or the empty string),
    otherwise the string. *)
Definition truthy (x : option string) : option string :=
  match x with
  | None => None
  | Some s => if String.eqb s EmptyString then None else Some s
  end.

Definition error_message (e : js_error) : string :=
  match e with
  | TypeError m => m
  | SyntaxError m => m
  | Error m => m
  end.

(** *** What the run does to the outside: console lines and calls *)

Inductive log_line : Type :=
  | LogFetchingGist
  | LogCouldNotFetch
  | LogStarting
  | LogCreatedDirectory (dir : string)
  | LogFoundOld (count : nat)
  | LogFetchingAll
  | LogTotal (count : nat)
  | LogEvaluating (id : string)
  | LogSkipNoTokenUri (id : string)
  | LogSkipNoImage (id : string)
  | LogSaved (path : string)
  | LogMatch (masterImageName : string) (distance : nat)
  | LogFailed (id : string) (message : string)
  | LogChanged (oldCount newCount : nat)
  | LogUpdating
  | LogUpdated
  | LogNoChanges
  | LogFinished
  | LogFatal (message : string).

Inductive event : Type :=
  | Console (line : log_line)
  | GistGet
  | ExistsSync (path : string)
  | MkdirSync (path : string)
  | Enumerate
  | MetadataGet (uri : string)
  | ImageRead (url : string)
  | ImageWrite (path : string)
  | GistPatch (document : string).

(** *** The collaborators

    Everything the script reaches outside itself, as transformers of an
    abstract world, together with what it loads from its environment:

    - [MINTED_IMAGES_DIR] and [path_join]: the image directory under
      [__dirname] and [path.join];
    - [masterHashes]: the object read from [master-hashes.json], which
      [generate-hashes.js] writes as a flat object from file name to
      [pHash] string;
    - [JSON_parse]: [JSON.parse] on the gist document, which is the flat
      object of booleans that the script itself publishes; a document that
      parses to another kind of value (such as [null], on which
      [Object.keys] throws) is not represented;
    - [axios_get_gist], [axios_patch]: reading and updating the gist;
    - [fs_existsSync], [fs_mkdirSync], [image_write]: the file system;
    - [getNftsForContractIterator]: the whole [for await] enumeration, which
      either yields every item or throws;
    - [axios_get], [Jimp_read]: the metadata request and the image read. *)

Class Collaborators (World : Type) : Type := {
  MINTED_IMAGES_DIR : string;
  path_join : string -> string -> string;
  masterHashes : jsobject string;
  JSON_parse : string -> completion (jsobject bool);
  axios_get_gist : World -> completion gist_response * World;
  fs_existsSync : string -> World -> bool * World;
  fs_mkdirSync : string -> World -> completion unit * World;
  getNftsForContractIterator : World -> completion (list nft) * World;
  axios_get : string -> World -> completion metadata_response * World;
  Jimp_read : string -> World -> completion jimp_image * World;
  image_write : jimp_image -> string -> World -> completion unit * World;
  axios_patch : string -> World -> completion unit * World
}.

(** *** The monad of the script

    The state is the outside world and the object bound to
    [newCensoredList]; a computation yields a completion, the state it
    leaves and the events it emitted, oldest first. *)

Record state (World : Type) : Type :=
  { world : World; newCensoredList : jsobject bool }.

Arguments world {World} s.
Arguments newCensoredList {World} s.

Record result (World A : Type) : Type :=
  { outcome : completion A; final : state World; emitted : list event }.

Arguments outcome {World A} r.
Arguments final {World A} r.
Arguments emitted {World A} r.

Definition M (World A : Type) : Type := state World -> result World A.

Section Monad.
Context {World : Type}.

Definition ret {A} (a : A) : M World A :=
  fun s => {| outcome := Normal a; final := s; emitted := [] |}.

Definition throw {A} (e : js_error) : M World A :=
  fun s => {| outcome := Throw e; final := s; emitted := [] |}.

Definition bind {A B} (m : M World A) (k : A -> M World B) : M World B :=
  fun s =>
    let r := m s in
    match outcome r with
    | Normal a =>
        let r' := k a (final r) in
        {| outcome := outcome r'; final := final r';
           emitted := emitted r ++ emitted r' |}
    | Throw e =>
        {| outcome := Throw e; final := final r; emitted := emitted r |}
    end.

(** [try { m } catch (error) { handler }]. *)
Definition try_catch {A} (m : M World A) (handler : js_error -> M World A)
  : M World A :=
  fun s =>
    let r := m s in
    match outcome r with
    | Normal _ => r
    | Throw e =>
        let r' := handler e (final r) in
        {| outcome := outcome r'; final := final r';
           emitted := emitted r ++ emitted r' |}
    end.

(** The value of a completion computed without touching the state. *)
Definition lift {A} (c : completion A) : M World A :=
  match c with
  | Normal a => ret a
  | Throw e => throw e
  end.

(** Reading a member of a value that is missing throws a [TypeError]. *)
Definition member {A} (x : option A) : M World A :=
  match x with
  | Some a => ret a
  | None => throw (TypeError "Cannot read properties of undefined")
  end.

Definition console_log (line : log_line) : M World unit :=
  fun s => {| outcome := Normal tt; final := s; emitted := [Console line] |}.

(** A call to a collaborator: the world moves, the call is recorded. *)
Definition external {A} (ev : event) (op : World -> completion A * World)
  : M World A :=
  fun s =>
    let (c, w) := op (world s) in
    {| outcome := c;
       final := {| world := w; newCensoredList := newCensoredList s |};
       emitted := [ev] |}.

Definition get_newCensoredList : M World (jsobject bool) :=
  fun s => {| outcome := Normal (newCensoredList s); final := s;
              emitted := [] |}.

Definition put_newCensoredList (o : jsobject bool) : M World unit :=
  fun s => {| outcome := Normal tt;
              final := {| world := world s; newCensoredList := o |};
              emitted := [] |}.

End Monad.

Declare Scope curator_scope.
Delimit Scope curator_scope with curator.
Notation "x <- m ;; k" := (bind m (fun x => k))
  (at level 61, m at next level, right associativity) : curator_scope.
Notation "m ;; k" := (bind m (fun _ => k))
  (at level 61, right associativity) : curator_scope.
Open Scope curator_scope.

Section Run.
Context {World : Type} {io : Collaborators World}.

(** [for (const x of l) body]. *)
Fixpoint for_of {A} (l : list A) (body : A -> M World unit) : M World unit :=
  match l with
  | [] => ret tt
  | x :: l' => body x ;; for_of l' body
  end.

(** [fs.existsSync(path)], which does not throw. *)
Definition exists_sync (path : string) : M World bool :=
  external (ExistsSync path)
    (fun w => let (b, w') := fs_existsSync path w in (Normal b, w')).

(** [getCurrentCensoredList]. *)
Definition getCurrentCensoredList : M World (jsobject bool) :=
  try_catch
    (console_log LogFetchingGist ;;
     response <- external GistGet axios_get_gist ;;
     response_data <- member (data response) ;;
     response_files <- member (files response_data) ;;
     match obj_get response_files GIST_FILENAME with
     | Some file => lift (JSON_parse (content file))
     | None => ret []
     end)
    (fun error => console_log LogCouldNotFetch ;; ret []).

(** The inner [for ... in] loop over the reference signatures, over the
    entries that remain to be visited: on the first distance within the
    threshold it logs the match, records the token and breaks. *)
Fixpoint match_loop (id newHash : string) (entries : list (string * string))
  : M World unit :=
  match entries with
  | [] => ret tt
  | (masterImageName, masterHash) :: entries' =>
      let distance := calculateHammingDistance newHash masterHash in
      if (distance <=? SIMILARITY_THRESHOLD)%nat then
        console_log (LogMatch masterImageName distance) ;;
        list <- get_newCensoredList ;;
        put_newCensoredList (obj_set list id true)
      else match_loop id newHash entries'
  end.

(** The [try] block of the loop over the collection; [continue] ends it. *)
Definition evaluate (item : nft) : M World unit :=
  console_log (LogEvaluating (tokenId item)) ;;
  match truthy (tokenUri item) with
  | None => console_log (LogSkipNoTokenUri (tokenId item))
  | Some uri =>
      metadataResponse <- external (MetadataGet uri) (axios_get uri) ;;
      response_data <- member (metadata_data metadataResponse) ;;
      match truthy (image response_data) with
      | None => console_log (LogSkipNoImage (tokenId item))
      | Some imageUrl =>
          image <- external (ImageRead imageUrl) (Jimp_read imageUrl) ;;
          newHash <- lift (pHash image) ;;
          let imagePath :=
            path_join MINTED_IMAGES_DIR (tokenId item ++ ".jpg") in
          saved <- exists_sync imagePath ;;
          (if negb saved then
             external (ImageWrite imagePath) (image_write image imagePath) ;;
             console_log (LogSaved imagePath)
           else ret tt) ;;
          match_loop (tokenId item) newHash (own_entries masterHashes)
      end
  end.

(** One turn of the loop over the collection: the [try] block and its
    [catch]. *)
Definition process_item (item : nft) : M World unit :=
  try_catch (evaluate item)
    (fun error =>
       console_log (LogFailed (tokenId item) (error_message error))).

(** The decision taken at the end of the run:
    [JSON.stringify(oldKeys) !== JSON.stringify(newKeys)] on the sorted
    keys of the two lists. *)
Definition list_changed (currentCensoredList new_list : jsobject bool) : bool :=
  let oldKeys := Array_sort (Object_keys currentCensoredList) in
  let newKeys := Array_sort (Object_keys new_list) in
  negb (String.eqb (JSON_stringify_array oldKeys)
                   (JSON_stringify_array newKeys)).

(** The start of [runCurator], up to the collection being enumerated. *)
Definition prepare : M World (jsobject bool * list nft) :=
  console_log LogStarting ;;
  present <- exists_sync MINTED_IMAGES_DIR ;;
  (if negb present then
     external (MkdirSync MINTED_IMAGES_DIR) (fs_mkdirSync MINTED_IMAGES_DIR) ;;
     console_log (LogCreatedDirectory MINTED_IMAGES_DIR)
   else ret tt) ;;
  currentCensoredList <- getCurrentCensoredList ;;
  console_log (LogFoundOld (List.length (Object_keys currentCensoredList))) ;;
  put_newCensoredList [] ;;
  console_log LogFetchingAll ;;
  allNfts <- external Enumerate getNftsForContractIterator ;;
  console_log (LogTotal (List.length allNfts)) ;;
  ret (currentCensoredList, allNfts).

(** The end of [runCurator]: compare the sorted keys and update the gist
    when they differ. *)
Definition publish_if_changed (currentCensoredList : jsobject bool)
  : M World unit :=
  list <- get_newCensoredList ;;
  let oldKeys := Array_sort (Object_keys currentCensoredList) in
  let newKeys := Array_sort (Object_keys list) in
  if list_changed currentCensoredList list then
    console_log (LogChanged (List.length oldKeys) (List.length newKeys)) ;;
    console_log LogUpdating ;;
    external (GistPatch (JSON_stringify_object show_bool list))
      (axios_patch (JSON_stringify_object show_bool list)) ;;
    console_log LogUpdated
  else
    console_log LogNoChanges.

(** [runCurator]: the start, the loop over the collection, the end. *)
Definition runCurator : M World unit :=
  prepared <- prepare ;;
  for_of (snd prepared) process_item ;;
  publish_if_changed (fst prepared).

(** [runCurator().then(...).catch(...)]. *)
Definition main : M World unit :=
  try_catch (runCurator ;; console_log LogFinished)
    (fun error => console_log (LogFatal (error_message error))).

(** *** Observations on a run *)

(** A reference that is farther from [newHash] than the threshold. *)
Definition exceeds_threshold (newHash : string) (entry : string * string)
  : Prop :=
  SIMILARITY_THRESHOLD < calculateHammingDistance newHash (snd entry).

Definition is_patch (e : event) : bool :=
  match e with
  | GistPatch _ => true
  | _ => false
  end.

Definition is_match_line (e : event) : bool :=
  match e with
  | Console (LogMatch _ _) => true
  | _ => false
  end.

(** Whether a turn of the loop announced a match. *)
Definition announces_match (events : list event) : bool :=
  existsb is_match_line events.

(** The ids of the items whose turn of the loop announced a match, each
    turn starting from the state the previous one left. *)
Fixpoint matched_ids (items : list nft) (s : state World) : list string :=
  match items with
  | [] => []
  | item :: items' =>
      let r := process_item item s in
      (if announces_match (emitted r) then [tokenId item] else [])
      ++ matched_ids items' (final r)
  end.

(** A computation is quiet when it leaves [newCensoredList] alone,
    announces no match and does not update the gist. *)
Definition quiet {A} (m : M World A) : Prop :=
  forall s,
    newCensoredList (final (m s)) = newCensoredList s
    /\ announces_match (emitted (m s)) = false
    /\ existsb is_patch (emitted (m s)) = false.

(** What one turn of the loop for the item [id] may do: it never updates
    the gist, and either announces nothing and leaves the list alone, or
    completes normally having announced a match and recorded [id]. *)
Definition item_post (id : string) (s : state World) (r : result World unit)
  : Prop :=
  existsb is_patch (emitted r) = false
  /\ ((announces_match (emitted r) = false
       /\ newCensoredList (final r) = newCensoredList s)
      \/ (outcome r = Normal tt
          /\ announces_match (emitted r) = true
          /\ newCensoredList (final r)
             = obj_set (newCensoredList s) id true)).

(** [turn items s item s']: in the loop over [items] started in state [s],
    the turn of [item] starts in state [s']. *)
Inductive turn : list nft -> state World -> nft -> state World -> Prop :=
  | turn_here item rest s : turn (item :: rest) s item s
  | turn_later first rest s item s' :
      turn rest (final (process_item first s)) item s' ->
      turn (first :: rest) s item s'.

(** A computation that never updates the gist. *)
Definition patch_free {A} (m : M World A) : Prop :=
  forall s, existsb is_patch (emitted (m s)) = false.

End Run.

End Curator.

(** ** A small concrete world

    A gist holding at most one document, a directory of saved images and a
    collection whose metadata and images are looked up in tables; the
    item with id 9 has unreachable metadata. *)

Module Scenario.
Import JS Curator.

Record test_world : Type :=
  { gist_document : option string;
    saved_files : list string;
    collection : list nft }.

Definition poseA : string := "0000000000000000".
Definition poseB : string := "1110000000000000".

Definition signatures : list (string * string) :=
  [("img/5", "1110000000000000");
   ("img/7", "1111111111110000");
   ("img/12", "0000000000000000")].

Definition item (id : string) : nft :=
  {| tokenId := id; tokenUri := Some ("meta/" ++ id) |}.

Definition document (ids : list string) : string :=
  JSON_stringify_object show_bool (map (fun id => (id, true)) ids).

(** Stands for [JSON.parse] on the documents the scenarios use. *)
Definition test_parse (text : string) : completion (jsobject bool) :=
  if String.eqb text (document ["9"]) then Normal [("9", true)]
  else if String.eqb text (document ["5"]) then Normal [("5", true)]
  else if String.eqb text (document []) then Normal []
  else Throw (SyntaxError "Unexpected token").

Definition test_metadata (uri : string) : completion metadata_response :=
  if String.eqb uri "meta/9" then Throw (Error "Request failed")
  else Normal {| metadata_data :=
                   Some {| image := Some ("img/" ++ substring 5 (String.length uri) uri) |} |}.

Definition test_image (url : string) : completion jimp_image :=
  match find (fun p => String.eqb (fst p) url) signatures with
  | Some p => Normal {| pHash := Normal (snd p) |}
  | None => Throw (Error "Could not find MIME for Buffer")
  end.

#[export] Instance test_io : Collaborators test_world := {
  MINTED_IMAGES_DIR := "minted-images";
  path_join := fun dir name => dir ++ "/" ++ name;
  masterHashes := [("poseA.jpg", poseA); ("poseB.jpg", poseB)];
  JSON_parse := test_parse;
  axios_get_gist := fun w =>
    (match gist_document w with
     | Some text =>
         Normal {| data := Some {| files :=
                     Some [(GIST_FILENAME, {| content := text |})] |} |}
     | None => Throw (Error "Request failed with status code 404")
     end, w);
  fs_existsSync := fun path w =>
    (existsb (String.eqb path) (saved_files w), w);
  fs_mkdirSync := fun path w =>
    (Normal tt,
     {| gist_document := gist_document w;
        saved_files := path :: saved_files w;
        collection := collection w |});
  getNftsForContractIterator := fun w => (Normal (collection w), w);
  axios_get := fun uri w => (test_metadata uri, w);
  Jimp_read := fun url w => (test_image url, w);
  image_write := fun _ path w =>
    (Normal tt,
     {| gist_document := gist_document w;
        saved_files := path :: saved_files w;
        collection := collection w |});
  axios_patch := fun text w =>
    (Normal tt,
     {| gist_document := Some text;
        saved_files := saved_files w;
        collection := collection w |})
}.

Definition start (w : test_world) : state test_world :=
  {| world := w; newCensoredList := [] |}.

(** Scenario A: the gist lists item 5; items 5 and 7 are enumerated. *)
Definition worldA : test_world :=
  {| gist_document := Some (document ["5"]);
     saved_files := [];
     collection := [item "5"; item "7"] |}.

(** Scenario B: no gist document yet; item 12 is enumerated. *)
Definition worldB : test_world :=
  {| gist_document := None; saved_files := []; collection := [item "12"] |}.

(** Scenario C: the gist lists item 9, whose metadata cannot be fetched. *)
Definition worldC : test_world :=
  {| gist_document := Some (document ["9"]);
     saved_files := [];
     collection := [item "9"] |}.

End Scenario.

(** ** Reading the trace of a run *)

Module Trace.
Import JS Curator.

(** The calls to collaborators in a trace, without the console lines. *)
Definition is_external (e : event) : bool :=
  match e with
  | Console _ => false
  | _ => true
  end.

Definition external_calls (events : list event) : list event :=
  filter is_external events.

(** The ids announced by "Evaluating token" lines, in order. *)
Definition evaluated_ids (events : list event) : list string :=
  flat_map (fun e => match e with
                     | Console (LogEvaluating id) => [id]
                     | _ => []
                     end) events.

(** [l] is an initial part of [full]. *)
Definition initial_part {A} (l full : list A) : Prop :=
  exists rest, full = (l ++ rest)%list.

(** A result with more events in front of its own. *)
Definition prepend {World A} (events : list event) (r : result World A)
  : result World A :=
  {| outcome := outcome r; final := final r;
     emitted := events ++ emitted r |}.

(** What the inner loop may emit: nothing, or one "Match found" line. *)
Definition loop_events (events : list event) : Prop :=
  events = [] \/ exists name distance,
                   events = [Console (LogMatch name distance)].

(** Lines and calls that the properties below look for in a trace. *)
Definition is_updated_line (e : event) : bool :=
  match e with
  | Console LogUpdated => true
  | _ => false
  end.


(** A computation none of whose events satisfies [P]. *)
Definition free_of {World A} (P : event -> bool) (m : M World A) : Prop :=
  forall s, existsb P (emitted (m s)) = false.

(** Whether any reference is within the threshold of a signature. *)
Definition some_reference_near (newHash : string)
           (entries : list (string * string)) : bool :=
  existsb (fun entry =>
             (Comparator.calculateHammingDistance newHash (snd entry)
              <=? SIMILARITY_THRESHOLD)%nat) entries.

Section Turn.
Context {World : Type} {io : Collaborators World}.

(** Whether fetching the published list ends in its [catch]: the request
    fails, the response lacks [data] or [files], or the document does not
    parse.  A response without the file is not an error. *)
Definition fetch_error (answer : completion gist_response) : bool :=
  match answer with
  | Throw _ => true
  | Normal response =>
      match data response with
      | None => true
      | Some response_data =>
          match files response_data with
          | None => true
          | Some response_files =>
              match obj_get response_files GIST_FILENAME with
              | None => false
              | Some file =>
                  match JSON_parse (content file) with
                  | Normal _ => false
                  | Throw _ => true
                  end
              end
          end
      end
  end.

(** Where the image of an item is kept: [imagePath] of [runCurator]. *)
Definition image_path (item : nft) : string :=
  path_join MINTED_IMAGES_DIR (tokenId item ++ ".jpg").

(** The signature with which the turn of [item], started in the world
    [w], reaches the comparison with the references: the metadata is
    fetched and names an image, the image is read and hashed, and it is
    already kept or is saved now.  [None] when the turn does not get that
    far: the item is skipped, or one of these steps fails. *)
Definition resolved_signature (item : nft) (w : World) : option string :=
  match truthy (tokenUri item) with
  | None => None
  | Some uri =>
      match axios_get uri w with
      | (Throw _, _) => None
      | (Normal response, w1) =>
          match metadata_data response with
          | None => None
          | Some response_data =>
              match truthy (image response_data) with
              | None => None
              | Some imageUrl =>
                  match Jimp_read imageUrl w1 with
                  | (Throw _, _) => None
                  | (Normal picture, w2) =>
                      match pHash picture with
                      | Throw _ => None
                      | Normal newHash =>
                          let (saved, w3) :=
                            fs_existsSync (image_path item) w2 in
                          if saved then Some newHash
                          else
                            match image_write picture (image_path item) w3 with
                            | (Normal _, _) => Some newHash
                            | (Throw _, _) => None
                            end
                      end
                  end
              end
          end
      end
  end.

(** An item matches a reference when its signature is obtained and some
    reference of the store is within the threshold of it. *)
Definition matches_a_reference (item : nft) (w : World) : bool :=
  match resolved_signature item w with
  | Some newHash => some_reference_near newHash (own_entries masterHashes)
  | None => false
  end.

(** The traces of the [try] block of an item after its "Evaluating" line,
    one shape for each place where the block can end. *)
Inductive turn_tail (item : nft) : list event -> Prop :=
  | tail_no_uri :
      truthy (tokenUri item) = None ->
      turn_tail item [Console (LogSkipNoTokenUri (tokenId item))]
  | tail_metadata_failed uri :
      truthy (tokenUri item) = Some uri ->
      turn_tail item [MetadataGet uri]
  | tail_no_image uri :
      truthy (tokenUri item) = Some uri ->
      turn_tail item
        [MetadataGet uri; Console (LogSkipNoImage (tokenId item))]
  | tail_image_failed uri url :
      truthy (tokenUri item) = Some uri ->
      turn_tail item [MetadataGet uri; ImageRead url]
  | tail_cached uri url loop :
      truthy (tokenUri item) = Some uri ->
      loop_events loop ->
      turn_tail item
        ([MetadataGet uri; ImageRead url; ExistsSync (image_path item)]
         ++ loop)
  | tail_write_failed uri url :
      truthy (tokenUri item) = Some uri ->
      turn_tail item
        [MetadataGet uri; ImageRead url; ExistsSync (image_path item);
         ImageWrite (image_path item)]
  | tail_saved uri url loop :
      truthy (tokenUri item) = Some uri ->
      loop_events loop ->
      turn_tail item
        ([MetadataGet uri; ImageRead url; ExistsSync (image_path item);
          ImageWrite (image_path item);
          Console (LogSaved (image_path item))]
         ++ loop).

End Turn.

End Trace.

(** ** The concrete world with failures switched on

    The world of the scenarios, with switches that make the enumeration,
    the saving of images or the update of the gist fail. *)

Module Faults.
Import JS Curator Scenario.

Record faulty_world : Type :=
  { inner : test_world;
    enumeration_down : bool;
    disk_full : bool;
    gist_read_only : bool }.

Definition with_inner (w : faulty_world) (i : test_world) : faulty_world :=
  {| inner := i;
     enumeration_down := enumeration_down w;
     disk_full := disk_full w;
     gist_read_only := gist_read_only w |}.

(** An operation of the world of the scenarios, run inside this one. *)
Definition inside {A} (op : test_world -> A * test_world) (w : faulty_world)
  : A * faulty_world :=
  let (a, i) := op (inner w) in (a, with_inner w i).

#[export] Instance faulty_io : Collaborators faulty_world := {
  MINTED_IMAGES_DIR := @MINTED_IMAGES_DIR test_world test_io;
  path_join := @path_join test_world test_io;
  masterHashes := @masterHashes test_world test_io;
  JSON_parse := @JSON_parse test_world test_io;
  axios_get_gist := inside (@axios_get_gist test_world test_io);
  fs_existsSync := fun path => inside (@fs_existsSync test_world test_io path);
  fs_mkdirSync := fun path => inside (@fs_mkdirSync test_world test_io path);
  getNftsForContractIterator := fun w =>
    if enumeration_down w
    then (Throw (Error "429 Too Many Requests"), w)
    else inside (@getNftsForContractIterator test_world test_io) w;
  axios_get := fun uri => inside (@axios_get test_world test_io uri);
  Jimp_read := fun url => inside (@Jimp_read test_world test_io url);
  image_write := fun picture path w =>
    if disk_full w
    then (Throw (Error "ENOSPC: no space left on device"), w)
    else inside (@image_write test_world test_io picture path) w;
  axios_patch := fun text w =>
    if gist_read_only w
    then (Throw (Error "Request failed with status code 401"), w)
    else inside (@axios_patch test_world test_io text) w
}.

Definition faulty_start (w : faulty_world) : state faulty_world :=
  {| world := w; newCensoredList := [] |}.


(** Scenario B with no room to save images. *)
Definition world_disk_full : faulty_world :=
  {| inner := worldB; enumeration_down := false; disk_full := true;
     gist_read_only := false |}.

(** Scenario B with a gist that refuses updates. *)
Definition world_read_only : faulty_world :=
  {| inner := worldB; enumeration_down := false; disk_full := false;
     gist_read_only := true |}.

End Faults.

(** ** Generating the reference signatures

    [generate] of [generate-hashes.js], written with the state passed
    along: the outside world, the object bound to [hashes] and what has
    been logged and called so far, oldest first. *)

Module GenerateHashes.
Import JS Curator.

Inductive gen_event : Type :=
  | GenReadDir (dir : string)
  | GenRead (path : string)
  | GenWriteFile (path text : string)
  | GenLogFound (count : nat)
  | GenLogHash (file hash : string)
  | GenLogError (file message : string)
  | GenLogCreated
  | GenLogNothing.

(** What the script reaches outside itself: [imageDir], [path.join],
    [fs.readdir], [jimp.Jimp.read] and [fs.writeFile]. *)
Class HashWorld (World : Type) : Type := {
  imageDir : string;
  join : string -> string -> string;
  readdir : string -> World -> completion (list string) * World;
  read_image : string -> World -> completion jimp_image * World;
  writeFile : string -> string -> World -> completion unit * World
}.

Record gen_state (World : Type) : Type :=
  { gen_world : World; hashes : jsobject string; gen_log : list gen_event }.

Arguments gen_world {World} g.
Arguments hashes {World} g.
Arguments gen_log {World} g.

(** [o[k] = v] on an object created by [{}], for a value [v] that is not
    an object: the key [__proto__] reaches the setter inherited from
    [Object.prototype], which ignores such a value; any other key becomes
    or stays an own property. *)
Definition js_assign {V} (o : jsobject V) (k : string) (v : V) : jsobject V :=
  if String.eqb k "__proto__" then o else obj_set o k v.

Section Generate.
Context {World : Type} {hw : HashWorld World}.

(** One turn of the loop over the files: the [try] block and its [catch]. *)
Definition hash_file (file : string) (st : gen_state World) : gen_state World :=
  let filePath := join imageDir file in
  let (read, w) := read_image filePath (gen_world st) in
  match read with
  | Throw error =>
      {| gen_world := w; hashes := hashes st;
         gen_log := gen_log st
                    ++ [GenRead filePath;
                        GenLogError file (error_message error)] |}
  | Normal image =>
      match pHash image with
      | Throw error =>
          {| gen_world := w; hashes := hashes st;
             gen_log := gen_log st
                        ++ [GenRead filePath;
                            GenLogError file (error_message error)] |}
      | Normal hash =>
          {| gen_world := w; hashes := js_assign (hashes st) file hash;
             gen_log := gen_log st
                        ++ [GenRead filePath; GenLogHash file hash] |}
      end
  end.

(** [for (const file of files)]. *)
Definition hash_files (files : list string) (st : gen_state World)
  : gen_state World :=
  fold_left (fun st file => hash_file file st) files st.

Definition generate (w : World) : completion unit * gen_state World :=
  let (listing, w1) := readdir imageDir w in
  match listing with
  | Throw error =>
      (Throw error,
       {| gen_world := w1; hashes := []; gen_log := [GenReadDir imageDir] |})
  | Normal files =>
      let st :=
        hash_files files
          {| gen_world := w1; hashes := [];
             gen_log := [GenReadDir imageDir;
                         GenLogFound (List.length files)] |} in
      if (0 <? List.length (Object_keys (hashes st)))%nat then
        let text := JSON_stringify_object QuoteJSONString (hashes st) in
        let (written, w2) :=
          writeFile "master-hashes.json" text (gen_world st) in
        match written with
        | Normal _ =>
            (Normal tt,
             {| gen_world := w2; hashes := hashes st;
                gen_log := gen_log st
                           ++ [GenWriteFile "master-hashes.json" text;
                               GenLogCreated] |})
        | Throw error =>
            (Throw error,
             {| gen_world := w2; hashes := hashes st;
                gen_log := gen_log st
                           ++ [GenWriteFile "master-hashes.json" text] |})
        end
      else
        (Normal tt,
         {| gen_world := gen_world st; hashes := hashes st;
            gen_log := gen_log st ++ [GenLogNothing] |})
  end.

End Generate.

(** *** Reading the log *)

Definition reads (log : list gen_event) : list string :=
  flat_map (fun e => match e with
                     | GenRead path => [path]
                     | _ => []
                     end) log.

Definition is_write (e : gen_event) : bool :=
  match e with
  | GenWriteFile _ _ => true
  | _ => false
  end.

(** *** A directory of three entries, one of them not an image *)

Definition master_files : list (string * completion jimp_image) :=
  [("minted-images/../master-images/poseA.jpg",
    Normal {| pHash := Normal "0000000000000000" |});
   ("minted-images/../master-images/notes.txt",
    Throw (Error "Could not find MIME for Buffer"));
   ("minted-images/../master-images/poseB.jpg",
    Normal {| pHash := Normal "1110000000000000" |})].

(** The world is the text of [master-hashes.json], if it exists. *)
#[export] Instance test_hash_world : HashWorld (option string) := {
  imageDir := "minted-images/../master-images";
  join := fun dir name => dir ++ "/" ++ name;
  readdir := fun _ w => (Normal ["poseA.jpg"; "notes.txt"; "poseB.jpg"], w);
  read_image := fun path w =>
    (match find (fun p => String.eqb (fst p) path) master_files with
     | Some p => snd p
     | None => Throw (Error "ENOENT")
     end, w);
  writeFile := fun _ text _ => (Normal tt, Some text)
}.

(** A directory in which nothing can be read as an image. *)
Definition unreadable_world : HashWorld (option string) := {|
  imageDir := "master-images";
  join := fun dir name => dir ++ "/" ++ name;
  readdir := fun _ w => (Normal ["notes.txt"], w);
  read_image := fun _ w => (Throw (Error "Could not find MIME for Buffer"), w);
  writeFile := fun _ text _ => (Normal tt, Some text)
|}.

End GenerateHashes.

(** ** Downloading the images

    [downloadNewImages] of [download-images.js], with the state passed
    along.  The collection is enumerated while the items are processed,
    so the iterator is a collaborator asked for one item at a time, and
    the loop is given a bound on the number of items it asks for. *)

Module DownloadImages.
Import JS Curator.

(** *** The file names already present

    [file.match(/token-(\d+)\.jpg/)]: the leftmost place where the file
    name reads [token-], at least one digit, [.jpg]; the result is the
    run of digits.  After [token-] the digits are taken greedily; a
    shorter run would be followed by a digit, not by the dot, so only the
    longest run can be followed by [.jpg]. *)

Fixpoint strip_prefix (p s : string) : option string :=
  match p with
  | EmptyString => Some s
  | String c p' =>
      match s with
      | EmptyString => None
      | String d s' => if Ascii.eqb c d then strip_prefix p' s' else None
      end
  end.

Fixpoint take_digits (s : string) : string * string :=
  match s with
  | EmptyString => (EmptyString, EmptyString)
  | String c s' =>
      if is_digit c
      then let (digits, rest) := take_digits s' in (String c digits, rest)
      else (EmptyString, s)
  end.

(** The pattern tried at the start of [s]. *)
Definition match_at (s : string) : option string :=
  match strip_prefix "token-" s with
  | None => None
  | Some rest =>
      let (digits, after) := take_digits rest in
      if String.eqb digits EmptyString then None
      else match strip_prefix ".jpg" after with
           | Some _ => Some digits
           | None => None
           end
  end.

(** The pattern tried at every position, from the left. *)
Fixpoint match_token (file : string) : option string :=
  match match_at file with
  | Some id => Some id
  | None =>
      match file with
      | EmptyString => None
      | String _ rest => match_token rest
      end
  end.

(** [new Set(existingFiles.map(...).filter(id => id !== null))], as the
    list of its distinct members. *)
Definition existingTokenIds (existingFiles : list string) : list string :=
  nodup string_dec
    (flat_map (fun file => match match_token file with
                           | Some id => [id]
                           | None => []
                           end) existingFiles).

(** [existingTokenIds.has(tokenId)]. *)
Definition has (ids : list string) (id : string) : bool :=
  existsb (String.eqb id) ids.

Fixpoint all_digits (s : string) : bool :=
  match s with
  | EmptyString => true
  | String c s' => is_digit c && all_digits s'
  end.

(** *** The run *)

Inductive dl_line : Type :=
  | DlStarting
  | DlFoundExisting (count : nat)
  | DlFetching
  | DlFoundNew (id : string)
  | DlSkipNoTokenUri (id : string)
  | DlSkipNoImage (id : string)
  | DlSaved (path : string)
  | DlFailed (id : string) (message : string)
  | DlComplete
  | DlSummary (count : nat)
  | DlUpToDate.

Inductive dl_event : Type :=
  | DlLog (line : dl_line)
  | DlMkdir (dir : string)
  | DlReadDir (dir : string)
  | DlNext
  | DlMetadataGet (uri : string)
  | DlImageRead (url : string)
  | DlImageWrite (path : string).

(** [OUTPUT_DIR], [path.join], [fs.mkdir] (recursive), [fs.readdir], the
    iterator of the collection ([None] when it is exhausted), the
    metadata request, [Jimp.Jimp.read] and [image.write]. *)
Class DownloadWorld (World : Type) : Type := {
  OUTPUT_DIR : string;
  dl_join : string -> string -> string;
  dl_mkdir : string -> World -> completion unit * World;
  dl_readdir : string -> World -> completion (list string) * World;
  dl_next : World -> completion (option nft) * World;
  dl_axios_get : string -> World -> completion metadata_response * World;
  dl_read : string -> World -> completion jimp_image * World;
  dl_write : jimp_image -> string -> World -> completion unit * World
}.

Record dl_state (World : Type) : Type :=
  { dl_world : World; newImagesDownloaded : nat; dl_trace : list dl_event }.

Arguments dl_world {World} d.
Arguments newImagesDownloaded {World} d.
Arguments dl_trace {World} d.

Section Download.
Context {World : Type} {dw : DownloadWorld World}.

(** The state after a call that moved the world to [w], with [events]
    added to the trace. *)
Definition advance (st : dl_state World) (w : World) (events : list dl_event)
  : dl_state World :=
  {| dl_world := w; newImagesDownloaded := newImagesDownloaded st;
     dl_trace := dl_trace st ++ events |}.

Definition save_path (item : nft) : string :=
  dl_join OUTPUT_DIR ("token-" ++ tokenId item ++ ".jpg").

(** The body of the loop for one item: the test on the set, then the
    [try] block and its [catch]. *)
Definition download_item (existing : list string) (item : nft)
           (st : dl_state World) : dl_state World :=
  if has existing (tokenId item) then st
  else
    let id := tokenId item in
    let failed w events error :=
      advance st w
        (DlLog (DlFoundNew id) :: events
         ++ [DlLog (DlFailed id (error_message error))]) in
    match truthy (tokenUri item) with
    | None =>
        advance st (dl_world st)
          [DlLog (DlFoundNew id); DlLog (DlSkipNoTokenUri id)]
    | Some uri =>
        let (answer, w1) := dl_axios_get uri (dl_world st) in
        match answer with
        | Throw error => failed w1 [DlMetadataGet uri] error
        | Normal metadataResponse =>
            match metadata_data metadataResponse with
            | None =>
                failed w1 [DlMetadataGet uri]
                  (TypeError "Cannot read properties of undefined")
            | Some response_data =>
                match truthy (image response_data) with
                | None =>
                    advance st w1
                      [DlLog (DlFoundNew id); DlMetadataGet uri;
                       DlLog (DlSkipNoImage id)]
                | Some imageUrl =>
                    let (read, w2) := dl_read imageUrl w1 in
                    match read with
                    | Throw error =>
                        failed w2 [DlMetadataGet uri; DlImageRead imageUrl]
                          error
                    | Normal picture =>
                        let (written, w3) :=
                          dl_write picture (save_path item) w2 in
                        match written with
                        | Throw error =>
                            failed w3
                              [DlMetadataGet uri; DlImageRead imageUrl;
                               DlImageWrite (save_path item)] error
                        | Normal _ =>
                            {| dl_world := w3;
                               newImagesDownloaded :=
                                 S (newImagesDownloaded st);
                               dl_trace :=
                                 dl_trace st
                                 ++ [DlLog (DlFoundNew id);
                                     DlMetadataGet uri;
                                     DlImageRead imageUrl;
                                     DlImageWrite (save_path item);
                                     DlLog (DlSaved (save_path item))] |}
                        end
                    end
                end
            end
        end
    end.

(** [for await (const nft of iterator)], asking for at most [fuel] items;
    [None] when the enumeration has not ended by then. *)
Fixpoint download_loop (fuel : nat) (existing : list string)
         (st : dl_state World) : option (completion unit * dl_state World) :=
  match fuel with
  | O => None
  | S fuel' =>
      let (answer, w) := dl_next (dl_world st) in
      match answer with
      | Throw error => Some (Throw error, advance st w [DlNext])
      | Normal None => Some (Normal tt, advance st w [DlNext])
      | Normal (Some item) =>
          download_loop fuel' existing
            (download_item existing item (advance st w [DlNext]))
      end
  end.

Definition downloadNewImages (fuel : nat) (w : World)
  : option (completion unit * dl_state World) :=
  let st0 := {| dl_world := w; newImagesDownloaded := 0;
                dl_trace := [DlLog DlStarting] |} in
  let (made, w1) := dl_mkdir OUTPUT_DIR w in
  match made with
  | Throw error => Some (Throw error, advance st0 w1 [DlMkdir OUTPUT_DIR])
  | Normal _ =>
      let (listing, w2) := dl_readdir OUTPUT_DIR w1 in
      match listing with
      | Throw error =>
          Some (Throw error,
                advance st0 w2 [DlMkdir OUTPUT_DIR; DlReadDir OUTPUT_DIR])
      | Normal existingFiles =>
          let existing := existingTokenIds existingFiles in
          let st1 :=
            advance st0 w2
              [DlMkdir OUTPUT_DIR; DlReadDir OUTPUT_DIR;
               DlLog (DlFoundExisting (List.length existing));
               DlLog DlFetching] in
          match download_loop fuel existing st1 with
          | None => None
          | Some (Throw error, st2) => Some (Throw error, st2)
          | Some (Normal _, st2) =>
              Some (Normal tt,
                    advance st2 (dl_world st2)
                      [DlLog DlComplete;
                       DlLog (if (0 <? newImagesDownloaded st2)%nat
                              then DlSummary (newImagesDownloaded st2)
                              else DlUpToDate)])
          end
      end
  end.

End Download.

(** The images reported as saved in a trace. *)
Definition saved_paths (trace : list dl_event) : list string :=
  flat_map (fun e => match e with
                     | DlLog (DlSaved path) => [path]
                     | _ => []
                     end) trace.

(** *** A collection of two items over a directory that can be listed

    The world is the list of file names in the image directory and the
    items the iterator has not yielded yet. *)

#[export] Instance test_download_world
  : DownloadWorld (list string * list nft) := {
  OUTPUT_DIR := "minted-images";
  dl_join := fun dir name => dir ++ "/" ++ name;
  dl_mkdir := fun _ w => (Normal tt, w);
  dl_readdir := fun _ w => (Normal (fst w), w);
  dl_next := fun w =>
    match snd w with
    | [] => (Normal None, w)
    | item :: rest => (Normal (Some item), (fst w, rest))
    end;
  dl_axios_get := fun uri w =>
    (if String.eqb uri "meta/9" then Throw (Error "Request failed")
     else Normal {| metadata_data := Some {| image := Some "img" |} |}, w);
  dl_read := fun _ w => (Normal {| pHash := Normal "0" |}, w);
  dl_write := fun _ path w =>
    (Normal tt, (substring 14 (String.length path) path :: fst w, snd w))
}.

Definition token (id : string) : nft :=
  {| tokenId := id; tokenUri := Some ("meta/" ++ id) |}.

End DownloadImages.

(** * Properties *)

Import Comparator JS Curator.

(** ** The comparator *)

Example distance_same : calculateHammingDistance "abc" "abc" = 0.
Proof. reflexivity. Qed.

Example distance_two : calculateHammingDistance "abcd" "abdc" = 2.
Proof. reflexivity. Qed.

Example distance_short_second : calculateHammingDistance "abcd" "ab" = 2.
Proof. reflexivity. Qed.

Example distance_long_second : calculateHammingDistance "ab" "abcd" = 0.
Proof. reflexivity. Qed.

(** *** The loop against the structural count *)

Lemma hamming_for_shift hash1 hash2 c d steps :
  forall i distance,
    hamming_for (String c hash1) (String d hash2) steps (S i) distance
    = hamming_for hash1 hash2 steps i distance.
Proof.
  induction steps as [|steps IH]; intros i distance; simpl.
  - reflexivity.
  - now rewrite IH.
Qed.

Lemma hamming_for_shift_empty hash1 c steps :
  forall i distance,
    hamming_for (String c hash1) EmptyString steps (S i) distance
    = hamming_for hash1 EmptyString steps i distance.
Proof.
  induction steps as [|steps IH]; intros i distance; simpl.
  - reflexivity.
  - rewrite IH. unfold js_index. simpl. now destruct i.
Qed.

Lemma hamming_for_acc hash1 hash2 steps :
  forall i distance,
    hamming_for hash1 hash2 steps i distance
    = distance + hamming_for hash1 hash2 steps i 0.
Proof.
  induction steps as [|steps IH]; intros i distance; simpl.
  - lia.
  - rewrite IH.
    rewrite (IH (S i) (if strict_neq _ _ then 1 else 0)).
    destruct (strict_neq _ _); lia.
Qed.

Lemma calculateHammingDistance_count_diff :
  forall a b, calculateHammingDistance a b = count_diff a b.
Proof.
  unfold calculateHammingDistance.
  induction a as [|c a IH]; intros b; simpl.
  - reflexivity.
  - destruct b as [|d b]; simpl.
    + rewrite hamming_for_shift_empty, hamming_for_acc.
      specialize (IH EmptyString). simpl. now rewrite IH.
    + rewrite hamming_for_shift, hamming_for_acc, IH.
      now destruct (Ascii.eqb c d).
Qed.

Lemma count_diff_sym :
  forall a b, String.length a = String.length b ->
              count_diff a b = count_diff b a.
Proof.
  induction a as [|c a IH]; intros [|d b] H; simpl in *; try discriminate.
  - reflexivity.
  - rewrite Ascii.eqb_sym. f_equal. apply IH. lia.
Qed.

Lemma count_diff_refl : forall a, count_diff a a = 0.
Proof.
  induction a as [|c a IH]; simpl.
  - reflexivity.
  - now rewrite Ascii.eqb_refl.
Qed.

Lemma count_diff_zero :
  forall a b, String.length a = String.length b ->
              count_diff a b = 0 -> a = b.
Proof.
  induction a as [|c a IH]; intros [|d b] H Z; simpl in *; try discriminate.
  - reflexivity.
  - destruct (Ascii.eqb c d) eqn:E; [|discriminate].
    apply Ascii.eqb_eq in E. subst d. f_equal. apply IH; [lia | exact Z].
Qed.

Lemma count_diff_empty : forall a, count_diff a EmptyString = String.length a.
Proof.
  induction a as [|c a IH]; simpl; [reflexivity | now rewrite IH].
Qed.

Lemma count_diff_short_second :
  forall a b, String.length b <= String.length a ->
              count_diff a b
              = count_diff (overlap a b) b
                + (String.length a - String.length b).
Proof.
  unfold overlap.
  induction a as [|c a IH]; intros [|d b] H; simpl in *.
  - reflexivity.
  - lia.
  - now rewrite count_diff_empty.
  - rewrite IH by lia. lia.
Qed.

Lemma count_diff_long_second :
  forall a b, String.length a <= String.length b ->
              count_diff a b = count_diff a (overlap b a).
Proof.
  unfold overlap.
  induction a as [|c a IH]; intros [|d b] H; simpl in *.
  - reflexivity.
  - reflexivity.
  - lia.
  - now rewrite <- IH by lia.
Qed.

Lemma count_diff_le_length : forall a b, count_diff a b <= String.length a.
Proof.
  induction a as [|c a IH]; intros [|d b]; simpl; try lia.
  - specialize (IH EmptyString). lia.
  - specialize (IH b). destruct (Ascii.eqb c d); lia.
Qed.

Lemma overlap_length :
  forall a b, String.length b <= String.length a ->
              String.length (overlap a b) = String.length b.
Proof.
  unfold overlap.
  induction a as [|c a IH]; intros [|d b] H; simpl in *; try lia.
  rewrite IH by lia. reflexivity.
Qed.

(** ** Objects, sorting and JSON *)

Example keys_order :
  Object_keys (obj_set (obj_set (obj_set (obj_set [] "b" true) "12" true)
                          "a" true) "5" true)
  = ["5"; "12"; "b"; "a"].
Proof. reflexivity. Qed.

Example sort_lexical : Array_sort ["5"; "12"; "b"; "a"] = ["12"; "5"; "a"; "b"].
Proof. reflexivity. Qed.

Example stringify_keys :
  JSON_stringify_array ["12"; "5"]
  = String "[" (String dquote ("12" ++ String dquote (String ","
      (String dquote ("5" ++ String dquote "]"))))).
Proof. reflexivity. Qed.

Example leading_zero_is_not_index : array_index "05" = None.
Proof. reflexivity. Qed.

Example too_large_is_not_index : array_index "4294967295" = None.
Proof. reflexivity. Qed.

(** *** Sorting *)

Section SortFacts.
Context {A : Type}.
Variable leb : A -> A -> bool.
Hypothesis leb_total : forall x y, leb x y = true \/ leb y x = true.
Hypothesis leb_trans :
  forall x y z, leb x y = true -> leb y z = true -> leb x z = true.
Hypothesis leb_antisym :
  forall x y, leb x y = true -> leb y x = true -> x = y.

Let le (x y : A) : Prop := leb x y = true.

Lemma insert_sorted_perm x l : Permutation (insert_sorted leb x l) (x :: l).
Proof.
  induction l as [|y l IH]; simpl.
  - apply Permutation_refl.
  - destruct (leb x y).
    + apply Permutation_refl.
    + eapply perm_trans; [apply perm_skip, IH | apply perm_swap].
Qed.

Lemma insertion_sort_perm l : Permutation (insertion_sort leb l) l.
Proof.
  induction l as [|x l IH]; simpl.
  - apply perm_nil.
  - eapply perm_trans; [apply insert_sorted_perm | now apply perm_skip].
Qed.

Lemma insert_sorted_strongly x l :
  StronglySorted le l -> StronglySorted le (insert_sorted leb x l).
Proof.
  induction 1 as [|y l Hl IH Hy]; simpl.
  - repeat constructor.
  - destruct (leb x y) eqn:E.
    + constructor; [now constructor|].
      constructor; [exact E|].
      rewrite Forall_forall in *. intros z Hz.
      eapply leb_trans; [exact E | now apply Hy].
    + constructor; [exact IH|].
      rewrite Forall_forall in *. intros z Hz.
      apply (Permutation_in _ (insert_sorted_perm x l)) in Hz.
      destruct Hz as [<-|Hz]; [|now apply Hy].
      destruct (leb_total x y) as [H|H]; [congruence | exact H].
Qed.

Lemma insertion_sort_strongly l : StronglySorted le (insertion_sort leb l).
Proof.
  induction l as [|x l IH]; simpl.
  - constructor.
  - now apply insert_sorted_strongly.
Qed.

Lemma strongly_sorted_unique l1 :
  forall l2, StronglySorted le l1 -> StronglySorted le l2 ->
             Permutation l1 l2 -> l1 = l2.
Proof.
  induction l1 as [|x l1 IH]; intros l2 H1 H2 P.
  - now apply Permutation_nil in P.
  - destruct l2 as [|y l2].
    + apply Permutation_sym, Permutation_nil in P. discriminate.
    + inversion H1 as [|? ? S1 F1]; inversion H2 as [|? ? S2 F2]; subst.
      rewrite Forall_forall in F1, F2.
      assert (E : x = y).
      { assert (Hx : In x (y :: l2))
          by (eapply Permutation_in; [exact P | now left]).
        assert (Hy : In y (x :: l1))
          by (eapply Permutation_in;
              [apply Permutation_sym; exact P | now left]).
        destruct Hx as [Hx|Hx]; [now symmetry|].
        destruct Hy as [Hy|Hy]; [exact Hy|].
        apply leb_antisym; [now apply F1 | now apply F2]. }
      subst y. f_equal. apply IH; trivial.
      now apply Permutation_cons_inv in P.
Qed.

Lemma insertion_sort_permutation l1 l2 :
  Permutation l1 l2 -> insertion_sort leb l1 = insertion_sort leb l2.
Proof.
  intros P. apply strongly_sorted_unique.
  - apply insertion_sort_strongly.
  - apply insertion_sort_strongly.
  - eapply perm_trans; [apply insertion_sort_perm|].
    eapply perm_trans; [exact P|].
    apply Permutation_sym, insertion_sort_perm.
Qed.

End SortFacts.

Lemma string_leb_trans a :
  forall b c, String.leb a b = true -> String.leb b c = true ->
              String.leb a c = true.
Proof.
  unfold String.leb.
  induction a as [|x a IH]; intros [|y b] [|z c]; simpl; try congruence.
  unfold Ascii.compare. specialize (IH b c).
  destruct (N.compare_spec (N_of_ascii x) (N_of_ascii y)) as [E1|L1|G1];
    destruct (N.compare_spec (N_of_ascii y) (N_of_ascii z)) as [E2|L2|G2];
    try congruence;
    destruct (N.compare_spec (N_of_ascii x) (N_of_ascii z)) as [E3|L3|G3];
    try congruence; try lia; auto.
Qed.

Lemma Array_sort_permutation l1 l2 :
  Permutation l1 l2 -> Array_sort l1 = Array_sort l2.
Proof.
  apply insertion_sort_permutation.
  - apply String.leb_total.
  - intros x y z. apply string_leb_trans.
  - apply String.leb_antisym.
Qed.

Lemma Array_sort_perm l : Permutation (Array_sort l) l.
Proof. apply insertion_sort_perm. Qed.

Lemma Array_sort_in k l : In k (Array_sort l) <-> In k l.
Proof.
  split; apply Permutation_in;
    [apply Array_sort_perm | apply Permutation_sym, Array_sort_perm].
Qed.

(** *** Own keys of an object *)

Lemma own_entries_perm {V} (o : jsobject V) : Permutation (own_entries o) o.
Proof.
  unfold own_entries.
  eapply perm_trans.
  - apply Permutation_app_tail, Permutation_map, insertion_sort_perm.
  - induction o as [|p o IH]; simpl.
    + apply perm_nil.
    + destruct (array_index (fst p)); simpl.
      * now apply perm_skip.
      * eapply perm_trans; [apply Permutation_sym, Permutation_middle|].
        now apply perm_skip.
Qed.

Lemma Object_keys_perm {V} (o : jsobject V) :
  Permutation (Object_keys o) (map fst o).
Proof. apply Permutation_map, own_entries_perm. Qed.

Lemma Object_keys_in {V} (o : jsobject V) k :
  In k (Object_keys o) <-> In k (map fst o).
Proof.
  split; apply Permutation_in;
    [apply Object_keys_perm | apply Permutation_sym, Object_keys_perm].
Qed.

Lemma obj_set_keys_new {V} (o : jsobject V) k v :
  ~ In k (map fst o) -> map fst (obj_set o k v) = (map fst o ++ [k])%list.
Proof.
  induction o as [|[k' v'] o IH]; simpl; intros H.
  - reflexivity.
  - destruct (String.eqb_spec k' k) as [->|N].
    + exfalso. apply H. now left.
    + simpl. f_equal. apply IH. tauto.
Qed.

Lemma obj_set_keys_old {V} (o : jsobject V) k v :
  In k (map fst o) -> map fst (obj_set o k v) = map fst o.
Proof.
  induction o as [|[k' v'] o IH]; simpl; intros H.
  - contradiction.
  - destruct (String.eqb_spec k' k) as [->|N].
    + reflexivity.
    + simpl. f_equal. apply IH. destruct H; [contradiction | assumption].
Qed.

Lemma obj_set_keys_in {V} (o : jsobject V) k v k' :
  In k' (map fst (obj_set o k v)) <-> k' = k \/ In k' (map fst o).
Proof.
  destruct (in_dec string_dec k (map fst o)) as [I|N].
  - rewrite obj_set_keys_old by assumption. split; [tauto|].
    intros [->|H]; assumption.
  - rewrite obj_set_keys_new by assumption. rewrite in_app_iff. simpl.
    split; [intros [H|[H|[]]]; auto | intros [H|H]; auto].
Qed.

(** *** [JSON.stringify] tells arrays of strings apart *)

Lemma string_app_assoc (a b c : string) : (a ++ b) ++ c = a ++ (b ++ c).
Proof.
  induction a as [|x a IH]; simpl; [reflexivity | now rewrite IH].
Qed.

Lemma unescape_escape_char c rest :
  unescape_one (escape_char c ++ rest) = Some (c, rest).
Proof.
  destruct c as [[] [] [] [] [] [] [] []]; reflexivity.
Qed.

Lemma escape_inj s1 :
  forall s2 r1 r2,
    escape s1 ++ String dquote r1 = escape s2 ++ String dquote r2 ->
    s1 = s2 /\ r1 = r2.
Proof.
  induction s1 as [|c1 s1 IH]; intros [|c2 s2] r1 r2 H; simpl in H.
  - injection H as ->. now split.
  - apply (f_equal unescape_one) in H.
    rewrite string_app_assoc, unescape_escape_char in H. discriminate.
  - apply (f_equal unescape_one) in H.
    rewrite string_app_assoc, unescape_escape_char in H. discriminate.
  - apply (f_equal unescape_one) in H.
    rewrite !string_app_assoc, !unescape_escape_char in H.
    injection H as -> H. apply IH in H. destruct H as [-> ->]. now split.
Qed.

Lemma QuoteJSONString_inj s1 s2 r1 r2 :
  QuoteJSONString s1 ++ r1 = QuoteJSONString s2 ++ r2 -> s1 = s2 /\ r1 = r2.
Proof.
  unfold QuoteJSONString. simpl. rewrite !string_app_assoc. simpl.
  intros H. injection H as H. now apply escape_inj in H.
Qed.

Lemma concat_quoted_cons x l :
  String.concat "," (map QuoteJSONString (x :: l)) ++ "]"
  = QuoteJSONString x
    ++ match l with
       | [] => "]"
       | _ :: _ => "," ++ String.concat "," (map QuoteJSONString l) ++ "]"
       end.
Proof.
  destruct l as [|y l].
  - reflexivity.
  - change (String.concat "," (map QuoteJSONString (x :: y :: l)))
      with (QuoteJSONString x
            ++ "," ++ String.concat "," (map QuoteJSONString (y :: l))).
    now rewrite !string_app_assoc.
Qed.

Lemma concat_quoted_inj l1 :
  forall l2,
    String.concat "," (map QuoteJSONString l1) ++ "]"
    = String.concat "," (map QuoteJSONString l2) ++ "]" ->
    l1 = l2.
Proof.
  induction l1 as [|x1 l1 IH]; intros [|x2 l2] H.
  - reflexivity.
  - rewrite concat_quoted_cons in H. discriminate.
  - rewrite concat_quoted_cons in H. discriminate.
  - rewrite !concat_quoted_cons in H.
    apply QuoteJSONString_inj in H. destruct H as [-> H]. f_equal.
    destruct l1 as [|y1 l1], l2 as [|y2 l2]; try discriminate.
    + reflexivity.
    + apply IH. simpl in H. injection H as H. exact H.
Qed.

Lemma JSON_stringify_array_inj l1 l2 :
  JSON_stringify_array l1 = JSON_stringify_array l2 -> l1 = l2.
Proof.
  unfold JSON_stringify_array. simpl. intros H. injection H as H.
  now apply concat_quoted_inj.
Qed.

Lemma list_changed_true_iff (old_list new_list : jsobject bool) :
  list_changed old_list new_list = true
  <-> Array_sort (Object_keys old_list) <> Array_sort (Object_keys new_list).
Proof.
  unfold list_changed. rewrite negb_true_iff, String.eqb_neq.
  split; intros H E; apply H.
  - now rewrite E.
  - now apply JSON_stringify_array_inj.
Qed.

Lemma list_changed_false_iff (old_list new_list : jsobject bool) :
  list_changed old_list new_list = false
  <-> Array_sort (Object_keys old_list) = Array_sort (Object_keys new_list).
Proof.
  unfold list_changed. rewrite negb_false_iff, String.eqb_eq.
  split; intros H.
  - now apply JSON_stringify_array_inj.
  - now rewrite H.
Qed.

(** ** The run *)

Section RunFacts.
Context {World : Type} {io : Collaborators World}.

Lemma announces_match_app l1 l2 :
  announces_match (l1 ++ l2) = announces_match l1 || announces_match l2.
Proof. apply existsb_app. Qed.

(** *** Quiet computations *)

Lemma quiet_ret {A} (a : A) : quiet (World:=World) (ret a).
Proof. intros s. now repeat split. Qed.

Lemma quiet_throw {A} e : quiet (@throw World A e).
Proof. intros s. now repeat split. Qed.

Lemma quiet_lift {A} (c : completion A) : quiet (World:=World) (lift c).
Proof. destruct c; [apply quiet_ret | apply quiet_throw]. Qed.

Lemma quiet_member {A} (x : option A) : quiet (World:=World) (member x).
Proof. destruct x; [apply quiet_ret | apply quiet_throw]. Qed.

Lemma quiet_get : quiet (World:=World) get_newCensoredList.
Proof. intros s. now repeat split. Qed.

Lemma quiet_console line :
  is_match_line (Console line) = false ->
  quiet (World:=World) (console_log line).
Proof.
  intros H s. split; [reflexivity|]. split; [|reflexivity].
  unfold announces_match, console_log, emitted. cbn [existsb].
  now rewrite H.
Qed.

Lemma quiet_external {A} ev (op : World -> completion A * World) :
  is_patch ev = false -> is_match_line ev = false -> quiet (external ev op).
Proof.
  intros H1 H2 s. unfold external, announces_match.
  destruct (op (world s)) as [c w]. simpl. rewrite H1, H2. now repeat split.
Qed.

Lemma quiet_exists_sync path : quiet (exists_sync path).
Proof. now apply quiet_external. Qed.

Lemma quiet_bind {A B} (m : M World A) (k : A -> M World B) :
  quiet m -> (forall a, quiet (k a)) -> quiet (bind m k).
Proof.
  intros Hm Hk s. unfold bind.
  destruct (Hm s) as (L & N & P).
  destruct (outcome (m s)) as [a|e]; simpl.
  - destruct (Hk a (final (m s))) as (L' & N' & P').
    rewrite announces_match_app, existsb_app, N, P, N', P'.
    repeat split. congruence.
  - now repeat split.
Qed.

Lemma quiet_try_catch {A} (m : M World A) handler :
  quiet m -> (forall e, quiet (handler e)) -> quiet (try_catch m handler).
Proof.
  intros Hm Hh s. unfold try_catch.
  destruct (Hm s) as (L & N & P).
  destruct (outcome (m s)) as [a|e]; simpl.
  - now repeat split.
  - destruct (Hh e (final (m s))) as (L' & N' & P').
    rewrite announces_match_app, existsb_app, N, P, N', P'.
    repeat split. congruence.
Qed.

Lemma quiet_if {A} (b : bool) (m1 m2 : M World A) :
  quiet m1 -> quiet m2 -> quiet (if b then m1 else m2).
Proof. now destruct b. Qed.

Create HintDb quiet discriminated.

#[local] Hint Resolve quiet_ret quiet_throw quiet_lift quiet_member quiet_get
  quiet_exists_sync : quiet.
#[local] Hint Extern 1 (quiet (console_log _)) =>
  apply quiet_console; reflexivity : quiet.
#[local] Hint Extern 1 (quiet (external _ _)) =>
  apply quiet_external; reflexivity : quiet.
#[local] Hint Extern 2 (quiet (bind _ _)) =>
  apply quiet_bind; [|intro] : quiet.
#[local] Hint Extern 2 (quiet (try_catch _ _)) =>
  apply quiet_try_catch; [|intro] : quiet.
#[local] Hint Extern 2 (quiet (if _ then _ else _)) => apply quiet_if : quiet.
#[local] Hint Extern 3 (quiet (match ?x with _ => _ end)) =>
  destruct x : quiet.

Lemma quiet_getCurrentCensoredList : quiet getCurrentCensoredList.
Proof. unfold getCurrentCensoredList. auto 12 with quiet. Qed.

#[local] Hint Resolve quiet_getCurrentCensoredList : quiet.

(** *** One turn of the loop *)

Lemma quiet_item_post id (m : M World unit) :
  quiet m -> forall s, item_post id s (m s).
Proof.
  intros Hm s. destruct (Hm s) as (L & N & P). split; [exact P|].
  left. now split.
Qed.

Lemma bind_item_post {A} id (m : M World A) (k : A -> M World unit) :
  quiet m -> (forall a s, item_post id s (k a s)) ->
  forall s, item_post id s (bind m k s).
Proof.
  intros Hm Hk s. unfold bind.
  destruct (Hm s) as (L & N & P).
  destruct (outcome (m s)) as [a|e]; simpl.
  - destruct (Hk a (final (m s))) as (P' & H). unfold item_post. simpl.
    rewrite announces_match_app, existsb_app, N, P, P'. simpl.
    split; [reflexivity|]. rewrite <- L. exact H.
  - split; [exact P|]. left. now split.
Qed.

Lemma match_loop_cons_far id newHash name hash entries (s : state World) :
  SIMILARITY_THRESHOLD < calculateHammingDistance newHash hash ->
  match_loop id newHash ((name, hash) :: entries) s
  = match_loop id newHash entries s.
Proof.
  intros H. simpl.
  destruct (Nat.leb_spec (calculateHammingDistance newHash hash)
                         SIMILARITY_THRESHOLD); [lia | reflexivity].
Qed.

Lemma match_loop_cons_near id newHash name hash entries (s : state World) :
  calculateHammingDistance newHash hash <= SIMILARITY_THRESHOLD ->
  match_loop id newHash ((name, hash) :: entries) s
  = {| outcome := Normal tt;
       final := {| world := world s;
                   newCensoredList := obj_set (newCensoredList s) id true |};
       emitted :=
         [Console (LogMatch name (calculateHammingDistance newHash hash))] |}.
Proof.
  intros H. simpl.
  destruct (Nat.leb_spec (calculateHammingDistance newHash hash)
                         SIMILARITY_THRESHOLD); [reflexivity | lia].
Qed.


Lemma match_loop_post id newHash entries :
  forall s : state World, item_post id s (match_loop id newHash entries s).
Proof.
  induction entries as [|[name hash] entries IH]; intros s.
  - apply quiet_item_post, quiet_ret.
  - destruct (Nat.leb_spec (calculateHammingDistance newHash hash)
                           SIMILARITY_THRESHOLD) as [H|H].
    + rewrite match_loop_cons_near by exact H.
      split; [reflexivity|]. right. now repeat split.
    + rewrite match_loop_cons_far by exact H. apply IH.
Qed.

(** One step through the [try] block: a quiet statement followed by the
    rest, a branch, the inner loop, or a quiet last statement. *)
Ltac item_post_step :=
  lazymatch goal with
  | |- forall s, item_post _ s (bind _ _ s) =>
      apply bind_item_post; [auto 6 with quiet | intro]
  | |- forall s, item_post _ s (match_loop _ _ _ s) => apply match_loop_post
  | |- forall s, item_post _ s (match ?x with _ => _ end s) => destruct x
  | |- forall s, item_post _ s (_ s) =>
      apply quiet_item_post; auto 6 with quiet
  end.

Lemma evaluate_post item :
  forall s : state World, item_post (tokenId item) s (evaluate item s).
Proof. unfold evaluate. repeat item_post_step. Qed.

Lemma process_item_normal item (s : state World) : outcome (process_item item s) = Normal tt.
Proof.
  unfold process_item, try_catch.
  destruct (outcome (evaluate item s)) as [[]|e] eqn:E.
  - exact E.
  - reflexivity.
Qed.

Lemma process_item_post item (s : state World) :
  item_post (tokenId item) s (process_item item s).
Proof.
  unfold process_item, try_catch.
  pose proof (evaluate_post item s) as Post.
  destruct (outcome (evaluate item s)) as [[]|e] eqn:E.
  - exact Post.
  - destruct Post as (P & [(N & L)|(O & _)]); [|congruence].
    unfold item_post, console_log. cbn [emitted final outcome].
    rewrite announces_match_app, existsb_app, N, P.
    split; [reflexivity|]. left. split; [reflexivity | exact L].
Qed.

Lemma process_item_list item (s : state World) :
  newCensoredList (final (process_item item s))
  = if announces_match (emitted (process_item item s))
    then obj_set (newCensoredList s) (tokenId item) true
    else newCensoredList s.
Proof.
  destruct (process_item_post item s) as (_ & [(N & L)|(_ & N & L)]);
    now rewrite N.
Qed.

(** *** Sequencing *)

Lemma bind_normal_inv {A B} (m : M World A) (k : A -> M World B) s b :
  outcome (bind m k s) = Normal b ->
  exists a,
    outcome (m s) = Normal a
    /\ outcome (k a (final (m s))) = Normal b
    /\ final (bind m k s) = final (k a (final (m s))).
Proof.
  unfold bind. destruct (outcome (m s)) as [a|e]; cbn [outcome final].
  - intros H. exists a. now repeat split.
  - discriminate.
Qed.

Lemma quiet_patch_free {A} (m : M World A) : quiet m -> patch_free m.
Proof. intros H s. apply (H s). Qed.

Lemma patch_free_bind {A B} (m : M World A) (k : A -> M World B) :
  patch_free m -> (forall a, patch_free (k a)) -> patch_free (bind m k).
Proof.
  intros Hm Hk s. unfold bind.
  destruct (outcome (m s)) as [a|e]; cbn [emitted].
  - now rewrite existsb_app, Hm, Hk.
  - apply Hm.
Qed.

Lemma patch_free_put o : patch_free (World:=World) (put_newCensoredList o).
Proof. intros s. reflexivity. Qed.

Lemma in_patch_existsb document events :
  In (GistPatch document) events -> existsb is_patch events = true.
Proof.
  intros H. apply existsb_exists. exists (GistPatch document). now split.
Qed.

(** *** The loop over the collection *)

Lemma for_of_process_normal items :
  forall s : state World, outcome (for_of items process_item s) = Normal tt.
Proof.
  induction items as [|item items IH]; intros s.
  - reflexivity.
  - cbn [for_of]. unfold bind. rewrite process_item_normal.
    cbn [outcome]. apply IH.
Qed.

Lemma for_of_process_cons item items (s : state World) :
  final (for_of (item :: items) process_item s)
  = final (for_of items process_item (final (process_item item s)))
  /\ emitted (for_of (item :: items) process_item s)
     = (emitted (process_item item s)
        ++ emitted (for_of items process_item (final (process_item item s))))%list.
Proof.
  cbn [for_of]. unfold bind. rewrite process_item_normal. now split.
Qed.

Lemma for_of_process_patch_free items :
  patch_free (World:=World) (for_of items process_item).
Proof.
  induction items as [|item items IH]; intros s.
  - reflexivity.
  - destruct (for_of_process_cons item items s) as [_ ->].
    rewrite existsb_app, IH.
    now destruct (process_item_post item s) as [-> _].
Qed.

Lemma for_of_process_list items :
  forall s : state World,
    newCensoredList (final (for_of items process_item s))
    = fold_left (fun o id => obj_set o id true) (matched_ids items s)
                (newCensoredList s).
Proof.
  induction items as [|item items IH]; intros s.
  - reflexivity.
  - destruct (for_of_process_cons item items s) as [-> _].
    rewrite IH, process_item_list. cbn [matched_ids].
    rewrite fold_left_app.
    now destruct (announces_match (emitted (process_item item s))).
Qed.

Lemma fold_obj_set_keys ids :
  forall (o : jsobject bool) k,
    In k (map fst (fold_left (fun o id => obj_set o id true) ids o))
    <-> In k ids \/ In k (map fst o).
Proof.
  induction ids as [|id ids IH]; intros o k; cbn [fold_left].
  - simpl. tauto.
  - rewrite IH, obj_set_keys_in. simpl. intuition congruence.
Qed.

Lemma matched_ids_turn items :
  forall (s : state World) k,
    In k (matched_ids items s)
    <-> exists item s',
          turn items s item s' /\ tokenId item = k
          /\ announces_match (emitted (process_item item s')) = true.
Proof.
  induction items as [|first items IH]; intros s k; cbn [matched_ids].
  - split; [contradiction|]. intros (item & s' & T & _). inversion T.
  - rewrite in_app_iff, IH. split.
    + intros [H|(item & s' & T & E & N)].
      * destruct (announces_match (emitted (process_item first s))) eqn:N;
          [|contradiction].
        destruct H as [<-|[]]. exists first, s.
        repeat split; [constructor | exact N].
      * exists item, s'. repeat split; [now constructor | exact E | exact N].
    + intros (item & s' & T & E & N). inversion T; subst.
      * left. rewrite N. now left.
      * right. exists item, s'. now repeat split.
Qed.

(** *** The start and the end of the run *)

Lemma prepare_patch_free : patch_free (World:=World) prepare.
Proof.
  unfold prepare.
  repeat (apply patch_free_bind;
          [first [apply patch_free_put
                 | apply quiet_patch_free; auto 6 with quiet]
          | intro]).
  apply quiet_patch_free; auto with quiet.
Qed.

Lemma prepare_starts_empty (s : state World) prepared :
  outcome (prepare s) = Normal prepared ->
  newCensoredList (final (prepare s)) = [].
Proof.
  unfold prepare. intros H.
  apply bind_normal_inv in H. destruct H as (? & _ & H & ->).
  apply bind_normal_inv in H. destruct H as (present & _ & H & ->).
  apply bind_normal_inv in H. destruct H as (? & _ & H & ->).
  apply bind_normal_inv in H. destruct H as (current & _ & H & ->).
  apply bind_normal_inv in H. destruct H as (? & _ & H & ->).
  apply bind_normal_inv in H. destruct H as (? & _ & H & ->).
  match goal with
  | |- newCensoredList (final (?m ?st)) = _ =>
      assert (Q : quiet m); [|destruct (Q st) as (-> & _)]
  end.
  - auto 8 with quiet.
  - reflexivity.
Qed.

Lemma publish_if_changed_unchanged previous (s : state World) :
  list_changed previous (newCensoredList s) = false ->
  publish_if_changed previous s
  = {| outcome := Normal tt; final := s; emitted := [Console LogNoChanges] |}.
Proof.
  intros H. unfold publish_if_changed, bind, get_newCensoredList.
  cbn [outcome final emitted]. rewrite H. reflexivity.
Qed.

Lemma publish_if_changed_changed previous (s : state World) :
  list_changed previous (newCensoredList s) = true ->
  In (GistPatch (JSON_stringify_object show_bool (newCensoredList s)))
     (emitted (publish_if_changed previous s))
  /\ newCensoredList (final (publish_if_changed previous s))
     = newCensoredList s.
Proof.
  intros H. unfold publish_if_changed, bind, get_newCensoredList.
  cbn [outcome final emitted]. rewrite H.
  unfold console_log, external. cbn [outcome final emitted world].
  destruct (axios_patch _ (world s)) as [[[]|e] w];
    cbn [outcome final emitted newCensoredList]; split;
    simpl; auto.
Qed.

Lemma publish_if_changed_patch previous (s : state World) document :
  In (GistPatch document) (emitted (publish_if_changed previous s)) ->
  list_changed previous (newCensoredList s) = true
  /\ document = JSON_stringify_object show_bool (newCensoredList s).
Proof.
  destruct (list_changed previous (newCensoredList s)) eqn:H.
  - unfold publish_if_changed, bind, get_newCensoredList.
    cbn [outcome final emitted]. rewrite H.
    unfold console_log, external. cbn [outcome final emitted world].
    destruct (axios_patch _ (world s)) as [[[]|e] w];
      cbn [outcome final emitted]; simpl;
      intros [F|[F|[F|F]]]; try discriminate; try contradiction;
      try (injection F as <-; now split);
      destruct F as [F|[]]; discriminate.
  - rewrite publish_if_changed_unchanged by exact H. simpl.
    intros [F|[]]. discriminate.
Qed.

Lemma publish_if_changed_list previous (s : state World) :
  newCensoredList (final (publish_if_changed previous s)) = newCensoredList s.
Proof.
  destruct (list_changed previous (newCensoredList s)) eqn:H.
  - now apply publish_if_changed_changed.
  - now rewrite publish_if_changed_unchanged.
Qed.

(** The run once the collection has been enumerated. *)
Lemma runCurator_prepared (s : state World) previous items :
  outcome (prepare s) = Normal (previous, items) ->
  let built := final (for_of items process_item (final (prepare s))) in
  emitted (runCurator s)
  = (emitted (prepare s)
     ++ emitted (for_of items process_item (final (prepare s)))
     ++ emitted (publish_if_changed previous built))%list
  /\ final (runCurator s) = final (publish_if_changed previous built)
  /\ outcome (runCurator s) = outcome (publish_if_changed previous built).
Proof.
  intros H built. unfold runCurator, bind. rewrite H.
  cbn [outcome final emitted fst snd].
  rewrite for_of_process_normal. cbn [outcome final emitted].
  now repeat split.
Qed.

Lemma runCurator_aborted (s : state World) e :
  outcome (prepare s) = Throw e ->
  emitted (runCurator s) = emitted (prepare s).
Proof.
  intros H. unfold runCurator, bind. now rewrite H.
Qed.

End RunFacts.

(** * Main theorems *)

(** ** The comparator *)

Lemma calculateHammingDistance_short_second a b :
  String.length b <= String.length a ->
  calculateHammingDistance a b
  = calculateHammingDistance (overlap a b) b
    + (String.length a - String.length b).
Proof.
  intros H. rewrite !calculateHammingDistance_count_diff.
  now apply count_diff_short_second.
Qed.

Lemma calculateHammingDistance_long_second a b :
  String.length a <= String.length b ->
  calculateHammingDistance a b = calculateHammingDistance a (overlap b a).
Proof.
  intros H. rewrite !calculateHammingDistance_count_diff.
  now apply count_diff_long_second.
Qed.

Lemma calculateHammingDistance_sym a b :
  String.length a = String.length b ->
  calculateHammingDistance a b = calculateHammingDistance b a.
Proof.
  intros H. rewrite !calculateHammingDistance_count_diff.
  now apply count_diff_sym.
Qed.

Lemma calculateHammingDistance_longer_first a b :
  String.length b < String.length a ->
  calculateHammingDistance a b
  = calculateHammingDistance b a + (String.length a - String.length b).
Proof.
  intros H.
  rewrite calculateHammingDistance_short_second by lia.
  rewrite (calculateHammingDistance_long_second b a) by lia.
  rewrite (calculateHammingDistance_sym (overlap a b) b); [reflexivity|].
  apply overlap_length. lia.
Qed.

Lemma js_index_out_of_range s : forall i,
  String.length s <= i -> js_index s i = None.
Proof.
  unfold js_index.
  induction s as [|c s IH]; intros i H; simpl in *.
  - reflexivity.
  - destruct i as [|i]; [lia | apply IH; lia].
Qed.

Lemma js_index_in_range s : forall i,
  i < String.length s -> exists c, js_index s i = Some c.
Proof.
  unfold js_index.
  induction s as [|c s IH]; intros i H; simpl in *.
  - lia.
  - destruct i as [|i]; [now exists c | apply IH; lia].
Qed.

(** C8: on signatures of equal length the distance is symmetric, the
    distance of a signature to itself is 0 (for every signature), and the
    result is the count of positions at which the two signatures differ,
    [count_diff], which on equal lengths adds one for each pair of unequal
    characters and nothing else. *)
Theorem distance_symmetric_zero_on_self_counts_differences :
  forall a b : string,
    String.length a = String.length b ->
    calculateHammingDistance a b = calculateHammingDistance b a
    /\ calculateHammingDistance a a = 0
    /\ calculateHammingDistance a b = count_diff a b
    /\ (calculateHammingDistance a b = 0 <-> a = b).
Proof.
  intros a b H. repeat split.
  - now apply calculateHammingDistance_sym.
  - rewrite calculateHammingDistance_count_diff. apply count_diff_refl.
  - apply calculateHammingDistance_count_diff.
  - rewrite calculateHammingDistance_count_diff. now apply count_diff_zero.
  - intros ->. rewrite calculateHammingDistance_count_diff.
    apply count_diff_refl.
Qed.

Lemma distance_symmetric_zero_on_self_counts_differences_witness :
  calculateHammingDistance "abcd" "abdc" = 2
  /\ calculateHammingDistance "abdc" "abcd" = 2
  /\ calculateHammingDistance "abcd" "abcd" = 0
  /\ calculateHammingDistance Scenario.poseA Scenario.poseB = 3.
Proof.
  destruct (distance_symmetric_zero_on_self_counts_differences "abcd" "abdc")
    as (Sym & Self & Count & _); [reflexivity|].
  destruct (distance_symmetric_zero_on_self_counts_differences
            Scenario.poseA Scenario.poseB)
    as (_ & _ & Poses & _); [reflexivity|].
  split; [rewrite Count; reflexivity|].
  split; [rewrite <- Sym, Count; reflexivity|].
  split; [exact Self|].
  rewrite Poses; reflexivity.
Defined.

(** C10: [calculateHammingDistance] completes normally with a natural
    number on every pair of strings.  When [hash2] is not longer than
    [hash1], every position of [hash1] past the end of [hash2] holds a
    character where [hash2] holds none and compares unequal to
    [undefined], so the result is the number of differing positions in the
    overlap, [count_diff] of the two equally long strings, plus
    [hash1.length - hash2.length]; in the other order the extra characters
    are not looked at; and on inputs of unequal length the two orders of
    the arguments give different results. *)
Theorem distance_total_and_counts_positions_past_the_end :
  forall hash1 hash2 : string,
    (exists n, call_calculateHammingDistance hash1 hash2 = Normal n)
    /\ (String.length hash2 <= String.length hash1 ->
        (forall i, String.length hash2 <= i < String.length hash1 ->
                   String.get i hash2 = None
                   /\ (exists c, String.get i hash1 = Some c)
                   /\ strict_neq (js_index hash1 i) (js_index hash2 i) = true)
        /\ String.length (overlap hash1 hash2) = String.length hash2
        /\ calculateHammingDistance hash1 hash2
           = count_diff (overlap hash1 hash2) hash2
             + (String.length hash1 - String.length hash2)
        /\ calculateHammingDistance hash2 hash1
           = count_diff (overlap hash1 hash2) hash2)
    /\ (String.length hash1 <> String.length hash2 ->
        calculateHammingDistance hash1 hash2
        <> calculateHammingDistance hash2 hash1).
Proof.
  intros hash1 hash2. split; [|split].
  - now exists (calculateHammingDistance hash1 hash2).
  - intros H. split; [|split; [|split]].
    + intros i [Hlo Hhi].
      pose proof (js_index_out_of_range hash2 i Hlo) as Out.
      destruct (js_index_in_range hash1 i Hhi) as [c In1].
      rewrite Out, In1. unfold js_index in Out, In1.
      split; [exact Out|]. split; [now exists c | reflexivity].
    + now apply overlap_length.
    + rewrite calculateHammingDistance_count_diff.
      now apply count_diff_short_second.
    + rewrite calculateHammingDistance_count_diff.
      rewrite (count_diff_long_second hash2 hash1 H).
      apply count_diff_sym. symmetry. now apply overlap_length.
  - intros H.
    destruct (Nat.lt_total (String.length hash1) (String.length hash2))
      as [L|[E|G]]; [|contradiction|].
    + rewrite (calculateHammingDistance_longer_first hash2 hash1 L). lia.
    + rewrite (calculateHammingDistance_longer_first hash1 hash2 G). lia.
Qed.

Lemma distance_total_and_counts_positions_past_the_end_witness :
  call_calculateHammingDistance "abcd" "ax" = Normal 3
  /\ overlap "abcd" "ax" = "ab"
  /\ calculateHammingDistance "abcd" "ax" = 1 + 2
  /\ calculateHammingDistance "ax" "abcd" = 1
  /\ calculateHammingDistance "abcd" "ax"
     <> calculateHammingDistance "ax" "abcd".
Proof.
  pose proof (distance_total_and_counts_positions_past_the_end "abcd" "ax")
    as (_ & Short & Asym).
  destruct Short as (_ & _ & Count & Reverse); [simpl; lia|].
  unfold call_calculateHammingDistance.
  split; [rewrite Count; reflexivity|].
  split; [reflexivity|].
  split; [rewrite Count; reflexivity|].
  split; [rewrite Reverse; reflexivity|].
  apply Asym. simpl. lia.
Defined.

(** C4, as stated, fails: on signatures of unequal length the call
    completes normally.  With a shorter second signature the out-of-range
    position is counted; with a longer one the comparison stops at the
    length of the first. *)
Lemma length_mismatch_is_not_rejected :
  String.length "ab" <> String.length "a"
  /\ call_calculateHammingDistance "ab" "a" = Normal 1
  /\ call_calculateHammingDistance "a" "ab" = Normal 0
  /\ ~ (exists e, call_calculateHammingDistance "ab" "a" = Throw e)
  /\ ~ (forall a b : string,
          String.length a <> String.length b ->
          exists e, call_calculateHammingDistance a b = Throw e).
Proof.
  split; [simpl; lia|]. split; [reflexivity|]. split; [reflexivity|].
  split.
  - intros [e H]. discriminate.
  - intros H. destruct (H "ab" "a") as [e E]; [simpl; lia | discriminate].
Qed.

(** C4, amended: on signatures of unequal length the distance function
    raises nothing and returns the number of positions of the first
    signature at which the two differ, [count_diff]; when the second
    signature is longer its tail is ignored, and when it is shorter each
    position past its end counts as a difference, so that the result is
    then at least the difference of the lengths. *)
Theorem length_mismatch_returns_a_count :
  forall a b : string,
    String.length a <> String.length b ->
    call_calculateHammingDistance a b = Normal (count_diff a b)
    /\ (forall e, call_calculateHammingDistance a b <> Throw e)
    /\ (String.length a < String.length b ->
        String.length (overlap b a) = String.length a
        /\ calculateHammingDistance a b = count_diff a (overlap b a))
    /\ (String.length b < String.length a ->
        String.length (overlap a b) = String.length b
        /\ calculateHammingDistance a b
           = count_diff (overlap a b) b
             + (String.length a - String.length b)
        /\ String.length a - String.length b
           <= calculateHammingDistance a b).
Proof.
  intros a b _. unfold call_calculateHammingDistance.
  rewrite !calculateHammingDistance_count_diff.
  split; [reflexivity|]. split; [discriminate|]. split; intros H.
  - split; [apply overlap_length; lia|].
    apply count_diff_long_second. lia.
  - split; [apply overlap_length; lia|].
    rewrite (count_diff_short_second a b) by lia. split; [reflexivity | lia].
Qed.

Lemma length_mismatch_returns_a_count_witness :
  call_calculateHammingDistance "ab" "a" = Normal 1
  /\ call_calculateHammingDistance "a" "ab" = Normal 0
  /\ call_calculateHammingDistance "abcd" "ax" = Normal 3
  /\ call_calculateHammingDistance "ax" "abcd" = Normal 1.
Proof.
  destruct (length_mismatch_returns_a_count "ab" "a") as (Short & _);
    [simpl; lia|].
  destruct (length_mismatch_returns_a_count "a" "ab") as (Long & _);
    [simpl; lia|].
  destruct (length_mismatch_returns_a_count "abcd" "ax") as (Short' & _);
    [simpl; lia|].
  destruct (length_mismatch_returns_a_count "ax" "abcd") as (Long' & _);
    [simpl; lia|].
  rewrite Short, Long, Short', Long'. repeat split.
Defined.

(** ** Reconciliation *)

(** C1: the decision sorts the keys of both lists and is [true] exactly
    when the two sorted sequences differ; a list compared with itself or
    with a list of the same keys created in another order is unchanged,
    and a key present on one side only makes it changed. *)
Theorem changed_exactly_when_sorted_keys_differ :
  forall previous current : jsobject bool,
    (list_changed previous current = true
     <-> Array_sort (Object_keys previous) <> Array_sort (Object_keys current))
    /\ list_changed previous previous = false
    /\ (Permutation (map fst previous) (map fst current) ->
        list_changed previous current = false)
    /\ (forall k, In k (map fst current) -> ~ In k (map fst previous) ->
                  list_changed previous current = true)
    /\ (forall k, In k (map fst previous) -> ~ In k (map fst current) ->
                  list_changed previous current = true).
Proof.
  intros previous current. split; [apply list_changed_true_iff|].
  split; [now apply list_changed_false_iff|].
  split; [|split].
  - intros P. apply list_changed_false_iff, Array_sort_permutation.
    eapply perm_trans; [apply Object_keys_perm|].
    eapply perm_trans; [exact P|].
    apply Permutation_sym, Object_keys_perm.
  - intros k Hc Hp. apply list_changed_true_iff. intros E. apply Hp.
    apply Object_keys_in, Array_sort_in. rewrite E.
    now apply Array_sort_in, Object_keys_in.
  - intros k Hp Hc. apply list_changed_true_iff. intros E. apply Hc.
    apply Object_keys_in, Array_sort_in. rewrite <- E.
    now apply Array_sort_in, Object_keys_in.
Qed.

Lemma changed_exactly_when_sorted_keys_differ_witness :
  list_changed [("1", true); ("2", true)] [("2", true); ("1", true)] = false
  /\ list_changed [("1", true); ("2", true)]
                  [("1", true); ("2", true); ("3", true)] = true
  /\ list_changed [("1", true); ("2", true); ("3", true)]
                  [("1", true); ("2", true)] = true.
Proof.
  split; [|split].
  - apply (changed_exactly_when_sorted_keys_differ
             [("1", true); ("2", true)] [("2", true); ("1", true)]).
    apply perm_swap.
  - refine (proj1 (proj2 (proj2 (proj2
             (changed_exactly_when_sorted_keys_differ
                [("1", true); ("2", true)]
                [("1", true); ("2", true); ("3", true)])))) "3" _ _).
    + simpl. auto 6.
    + simpl. intros [H|[H|[]]]; discriminate.
  - refine (proj2 (proj2 (proj2 (proj2
             (changed_exactly_when_sorted_keys_differ
                [("1", true); ("2", true); ("3", true)]
                [("1", true); ("2", true)])))) "3" _ _).
    + simpl. auto 6.
    + simpl. intros [H|[H|[]]]; discriminate.
Defined.

Lemma list_changed_key_removed (previous current : jsobject bool) k :
  In k (Object_keys previous) -> ~ In k (Object_keys current) ->
  list_changed previous current = true.
Proof.
  intros Hp Hc. apply list_changed_true_iff. intros E. apply Hc.
  apply Array_sort_in. rewrite <- E. now apply Array_sort_in.
Qed.

(** ** Classification *)

Section RunClaims.
Context {World : Type} {io : Collaborators World}.

Lemma match_loop_first_near id newHash earlier name hash later
      (s : state World) :
  Forall (exceeds_threshold newHash) earlier ->
  calculateHammingDistance newHash hash <= SIMILARITY_THRESHOLD ->
  match_loop id newHash (earlier ++ (name, hash) :: later) s
  = {| outcome := Normal tt;
       final := {| world := world s;
                   newCensoredList := obj_set (newCensoredList s) id true |};
       emitted :=
         [Console (LogMatch name (calculateHammingDistance newHash hash))] |}.
Proof.
  intros Far Near. induction Far as [|[n h] earlier Hfar _ IH].
  - now apply match_loop_cons_near.
  - rewrite <- app_comm_cons, match_loop_cons_far by exact Hfar. exact IH.
Qed.

Lemma match_loop_silent_iff id newHash entries (s : state World) :
  announces_match (emitted (match_loop id newHash entries s)) = false
  <-> Forall (exceeds_threshold newHash) entries.
Proof.
  induction entries as [|[name hash] entries IH].
  - split; [constructor | reflexivity].
  - destruct (Nat.leb_spec (calculateHammingDistance newHash hash)
                           SIMILARITY_THRESHOLD) as [H|H].
    + rewrite match_loop_cons_near by exact H. split.
      * discriminate.
      * intros F. inversion F as [|? ? Hfar _]; subst.
        unfold exceeds_threshold in Hfar. simpl in Hfar. lia.
    + rewrite match_loop_cons_far by exact H. rewrite IH. split.
      * now constructor.
      * intros F. now inversion F.
Qed.

Lemma first_within_threshold_exists newHash (entries : list (string * string)) :
  (exists entry,
      In entry entries
      /\ calculateHammingDistance newHash (snd entry) <= SIMILARITY_THRESHOLD) ->
  exists earlier name hash later,
    entries = (earlier ++ (name, hash) :: later)%list
    /\ Forall (exceeds_threshold newHash) earlier
    /\ calculateHammingDistance newHash hash <= SIMILARITY_THRESHOLD.
Proof.
  induction entries as [|[n h] entries IH]; intros (entry & I & Near).
  - contradiction.
  - destruct (Nat.leb_spec (calculateHammingDistance newHash h)
                           SIMILARITY_THRESHOLD) as [H|H].
    + exists [], n, h, entries. repeat split; [constructor | exact H].
    + destruct IH as (earlier & name & hash & later & -> & Far & Near').
      * destruct I as [<-|I]; [simpl in Near; lia|]. now exists entry.
      * exists ((n, h) :: earlier), name, hash, later.
        repeat split; [now constructor | exact Near'].
Qed.

(** C2: when the store holds references within the threshold of the
    signature (two or more, or just one), there is a first one in
    iteration order, after references that all exceed the threshold.
    Classification announces that first reference, records the item and
    stops: the result is the same whatever follows it in the store, even
    at an equal or smaller distance. *)
Theorem first_reference_within_threshold_wins :
  forall (id newHash : string) (s : state World),
    ((exists entry,
         In entry (own_entries masterHashes)
         /\ calculateHammingDistance newHash (snd entry)
            <= SIMILARITY_THRESHOLD) ->
     exists earlier name hash later,
       own_entries masterHashes = (earlier ++ (name, hash) :: later)%list
       /\ Forall (exceeds_threshold newHash) earlier
       /\ calculateHammingDistance newHash hash <= SIMILARITY_THRESHOLD)
    /\ (forall (name hash : string) (earlier later : list (string * string)),
          own_entries masterHashes = (earlier ++ (name, hash) :: later)%list ->
          Forall (exceeds_threshold newHash) earlier ->
          calculateHammingDistance newHash hash <= SIMILARITY_THRESHOLD ->
          match_loop id newHash (own_entries masterHashes) s
          = {| outcome := Normal tt;
               final := {| world := world s;
                           newCensoredList :=
                             obj_set (newCensoredList s) id true |};
               emitted :=
                 [Console
                    (LogMatch name (calculateHammingDistance newHash hash))] |}
          /\ forall others,
               match_loop id newHash (earlier ++ (name, hash) :: others) s
               = match_loop id newHash (own_entries masterHashes) s).
Proof.
  intros id newHash s. split; [apply first_within_threshold_exists|].
  intros name hash earlier later Store Far Near.
  rewrite Store. rewrite match_loop_first_near by assumption.
  split; [reflexivity|]. intros others.
  now apply match_loop_first_near.
Qed.


(** ** The loop over the collection *)

Lemma process_item_failed item (s : state World) e :
  outcome (evaluate item s) = Throw e ->
  emitted (process_item item s)
  = (emitted (evaluate item s)
     ++ [Console (LogFailed (tokenId item) (error_message e))])%list
  /\ final (process_item item s) = final (evaluate item s)
  /\ newCensoredList (final (process_item item s)) = newCensoredList s
  /\ announces_match (emitted (process_item item s)) = false.
Proof.
  intros E.
  destruct (evaluate_post item s) as (_ & [(N & L)|(O & _)]); [|congruence].
  unfold process_item, try_catch. rewrite E.
  unfold console_log. cbn [emitted final outcome].
  rewrite announces_match_app, N. now repeat split.
Qed.

Lemma match_loop_normal id newHash entries :
  forall s : state World,
    outcome (match_loop id newHash entries s) = Normal tt.
Proof.
  induction entries as [|[name hash] entries IH]; intros s.
  - reflexivity.
  - destruct (Nat.leb_spec (calculateHammingDistance newHash hash)
                           SIMILARITY_THRESHOLD) as [H|H].
    + now rewrite match_loop_cons_near.
    + rewrite match_loop_cons_far by exact H. apply IH.
Qed.

Lemma evaluate_metadata_failure item (s : state World) uri e w :
  truthy (tokenUri item) = Some uri ->
  axios_get uri (world s) = (Throw e, w) ->
  outcome (evaluate item s) = Throw e.
Proof.
  intros U H. unfold evaluate. rewrite U.
  unfold bind, console_log, external. cbn [outcome final emitted world].
  now rewrite H.
Qed.

Lemma evaluate_image_failure item (s : state World)
      uri response w response_data imageUrl e w' :
  truthy (tokenUri item) = Some uri ->
  axios_get uri (world s) = (Normal response, w) ->
  metadata_data response = Some response_data ->
  truthy (image response_data) = Some imageUrl ->
  Jimp_read imageUrl w = (Throw e, w') ->
  outcome (evaluate item s) = Throw e.
Proof.
  intros U H D I R. unfold evaluate. rewrite U.
  unfold bind, console_log, external. cbn [outcome final emitted world].
  rewrite H. cbn [outcome final emitted world]. rewrite D.
  cbn [member ret outcome final emitted world]. rewrite I.
  cbn [outcome final emitted world]. now rewrite R.
Qed.

Lemma evaluate_hash_failure item (s : state World)
      uri response w response_data imageUrl picture e w' :
  truthy (tokenUri item) = Some uri ->
  axios_get uri (world s) = (Normal response, w) ->
  metadata_data response = Some response_data ->
  truthy (image response_data) = Some imageUrl ->
  Jimp_read imageUrl w = (Normal picture, w') ->
  pHash picture = Throw e ->
  outcome (evaluate item s) = Throw e.
Proof.
  intros U H D I R P. unfold evaluate. rewrite U.
  unfold bind, console_log, external. cbn [outcome final emitted world].
  rewrite H. cbn [outcome final emitted world]. rewrite D.
  cbn [member ret outcome final emitted world]. rewrite I.
  cbn [outcome final emitted world]. rewrite R.
  cbn [outcome final emitted world]. now rewrite P.
Qed.

(** C5: whatever fails inside the [try] block of one item is caught: the
    turn completes normally, the loop goes on with the remaining items
    from the state the turn left, the failed item is not recorded and the
    list built so far is as it was.  A failed metadata request, a failed
    image read and a failed hash are such failures; classifying itself
    never throws. *)
Theorem failing_item_is_skipped_and_the_run_continues :
  forall (item : nft) (rest : list nft) (s : state World),
    outcome (process_item item s) = Normal tt
    /\ outcome (for_of (item :: rest) process_item s) = Normal tt
    /\ final (for_of (item :: rest) process_item s)
       = final (for_of rest process_item (final (process_item item s)))
    /\ (forall e,
          outcome (evaluate item s) = Throw e ->
          newCensoredList (final (process_item item s)) = newCensoredList s
          /\ announces_match (emitted (process_item item s)) = false
          /\ emitted (process_item item s)
             = (emitted (evaluate item s)
                ++ [Console (LogFailed (tokenId item) (error_message e))])%list)
    /\ (forall uri e w,
          truthy (tokenUri item) = Some uri ->
          axios_get uri (world s) = (Throw e, w) ->
          outcome (evaluate item s) = Throw e)
    /\ (forall uri response w response_data imageUrl e w',
          truthy (tokenUri item) = Some uri ->
          axios_get uri (world s) = (Normal response, w) ->
          metadata_data response = Some response_data ->
          truthy (image response_data) = Some imageUrl ->
          Jimp_read imageUrl w = (Throw e, w') ->
          outcome (evaluate item s) = Throw e)
    /\ (forall uri response w response_data imageUrl picture e w',
          truthy (tokenUri item) = Some uri ->
          axios_get uri (world s) = (Normal response, w) ->
          metadata_data response = Some response_data ->
          truthy (image response_data) = Some imageUrl ->
          Jimp_read imageUrl w = (Normal picture, w') ->
          pHash picture = Throw e ->
          outcome (evaluate item s) = Throw e)
    /\ (forall newHash,
          outcome (match_loop (tokenId item) newHash
                     (own_entries masterHashes) s) = Normal tt).
Proof.
  intros item rest s.
  split; [apply process_item_normal|].
  split; [apply for_of_process_normal|].
  split; [apply for_of_process_cons|].
  split.
  { intros e E.
    destruct (process_item_failed item s e E) as (Ev & _ & L & N).
    now repeat split. }
  split; [intros; eapply evaluate_metadata_failure; eassumption|].
  split; [intros; eapply evaluate_image_failure; eassumption|].
  split; [intros; eapply evaluate_hash_failure; eassumption|].
  intros newHash. apply match_loop_normal.
Qed.

(** ** Fetching the published list *)

(** C9: [getCurrentCensoredList] never throws, and every failure gives the
    empty list: a failed request, a response without [data] or [files], a
    response in which the file is absent, and a document that does not
    parse.  Only a document that parses is returned. *)
Theorem fetch_degrades_to_the_empty_list :
  forall s : state World,
    (exists list, outcome (getCurrentCensoredList s) = Normal list)
    /\ (forall e w,
          axios_get_gist (world s) = (Throw e, w) ->
          outcome (getCurrentCensoredList s) = Normal [])
    /\ (forall response w,
          axios_get_gist (world s) = (Normal response, w) ->
          outcome (getCurrentCensoredList s)
          = Normal
              match data response with
              | None => []
              | Some response_data =>
                  match files response_data with
                  | None => []
                  | Some response_files =>
                      match obj_get response_files GIST_FILENAME with
                      | None => []
                      | Some file =>
                          match JSON_parse (content file) with
                          | Normal list => list
                          | Throw _ => []
                          end
                      end
                  end
              end).
Proof.
  intros s.
  assert (Failed : forall e w,
             axios_get_gist (world s) = (Throw e, w) ->
             outcome (getCurrentCensoredList s) = Normal []).
  { intros e w H.
    unfold getCurrentCensoredList, try_catch, bind, console_log, external.
    cbn [outcome final emitted world]. now rewrite H. }
  assert (Answered : forall response w,
             axios_get_gist (world s) = (Normal response, w) ->
             outcome (getCurrentCensoredList s)
             = Normal
                 match data response with
                 | None => []
                 | Some response_data =>
                     match files response_data with
                     | None => []
                     | Some response_files =>
                         match obj_get response_files GIST_FILENAME with
                         | None => []
                         | Some file =>
                             match JSON_parse (content file) with
                             | Normal list => list
                             | Throw _ => []
                             end
                         end
                     end
                 end).
  { intros response w H.
    unfold getCurrentCensoredList, try_catch, bind, console_log, external.
    cbn [outcome final emitted world]. rewrite H.
    cbn [outcome final emitted].
    destruct (data response) as [response_data|]; [|reflexivity].
    cbn [member ret outcome final emitted].
    destruct (files response_data) as [response_files|]; [|reflexivity].
    cbn [member ret outcome final emitted].
    destruct (obj_get response_files GIST_FILENAME) as [file|];
      [|reflexivity].
    destruct (JSON_parse (content file)); reflexivity. }
  split; [|split; assumption].
  destruct (axios_get_gist (world s)) as [[response|e] w] eqn:H.
  - eexists. now apply (Answered response w).
  - eexists. now apply (Failed e w).
Qed.

(** ** Publishing *)

(** C6: the gist is updated only when the decision is "changed": an update
    seen in a run is the update of a run that got as far as comparing, in
    which the comparison said "changed", and it carries the list just
    built.  When the sorted keys of the previous and the new list are
    equal the end of the run only logs, and leaves the world as it was. *)
Theorem gist_is_updated_only_when_the_list_changed :
  forall s : state World,
    (forall document,
        In (GistPatch document) (emitted (runCurator s)) ->
        exists previous items,
          outcome (prepare s) = Normal (previous, items)
          /\ list_changed previous
               (newCensoredList
                  (final (for_of items process_item (final (prepare s)))))
             = true
          /\ document
             = JSON_stringify_object show_bool
                 (newCensoredList
                    (final (for_of items process_item (final (prepare s))))))
    /\ (forall previous,
          Array_sort (Object_keys previous)
          = Array_sort (Object_keys (newCensoredList s)) ->
          publish_if_changed previous s
          = {| outcome := Normal tt; final := s;
               emitted := [Console LogNoChanges] |})
    /\ (forall previous items,
          outcome (prepare s) = Normal (previous, items) ->
          Array_sort (Object_keys previous)
          = Array_sort
              (Object_keys
                 (newCensoredList
                    (final (for_of items process_item (final (prepare s)))))) ->
          existsb is_patch (emitted (runCurator s)) = false
          /\ world (final (runCurator s))
             = world (final (for_of items process_item (final (prepare s))))).
Proof.
  intros s. split; [|split].
  - intros document H.
    destruct (outcome (prepare s)) as [[previous items]|e] eqn:P.
    + exists previous, items. split; [reflexivity|].
      destruct (runCurator_prepared s previous items P) as (Ev & _ & _).
      rewrite Ev in H. apply in_app_or in H. destruct H as [H|H].
      { apply in_patch_existsb in H. now rewrite prepare_patch_free in H. }
      apply in_app_or in H. destruct H as [H|H].
      { apply in_patch_existsb in H.
        now rewrite for_of_process_patch_free in H. }
      now apply publish_if_changed_patch in H.
    + rewrite (runCurator_aborted s e P) in H.
      apply in_patch_existsb in H. now rewrite prepare_patch_free in H.
  - intros previous H. apply publish_if_changed_unchanged.
    now apply list_changed_false_iff.
  - intros previous items P H.
    destruct (runCurator_prepared s previous items P) as (Ev & Fin & _).
    apply list_changed_false_iff in H.
    rewrite Ev, Fin, publish_if_changed_unchanged by exact H.
    rewrite !existsb_app, prepare_patch_free, for_of_process_patch_free.
    now split.
Qed.

End RunClaims.

(** ** The scenarios of the specification, run in the concrete world *)

Module ScenarioFacts.
Import Scenario.

(** Scenario A: item 5 matches again at distance 3, item 7 matches nothing;
    the list is unchanged and the gist is not touched. *)
Example scenario_A :
  let r := main (start worldA) in
  newCensoredList (final r) = [("5", true)]
  /\ existsb is_patch (emitted r) = false
  /\ gist_document (world (final r)) = Some (document ["5"])
  /\ In (Console (LogMatch "poseA.jpg" 3)) (emitted r)
  /\ In (Console LogNoChanges) (emitted r).
Proof. vm_compute. intuition. Qed.

(** Scenario B: nothing published yet, item 12 matches at distance 0; the
    gist is updated with the new list. *)
Example scenario_B :
  let r := main (start worldB) in
  newCensoredList (final r) = [("12", true)]
  /\ In (GistPatch (document ["12"])) (emitted r)
  /\ gist_document (world (final r)) = Some (document ["12"]).
Proof. vm_compute. intuition. Qed.

(** Scenario C: item 9 was published but its metadata cannot be fetched;
    it is skipped and the gist is updated with the empty list. *)
Example scenario_C :
  let r := main (start worldC) in
  newCensoredList (final r) = []
  /\ In (Console (LogFailed "9" "Request failed")) (emitted r)
  /\ In (GistPatch (document [])) (emitted r)
  /\ gist_document (world (final r)) = Some (document []).
Proof. vm_compute. intuition. Qed.

Lemma first_reference_within_threshold_wins_witness :
  calculateHammingDistance poseB poseB < calculateHammingDistance poseB poseA
  /\ emitted (match_loop "5" poseB (own_entries masterHashes) (start worldA))
     = [Console (LogMatch "poseA.jpg" 3)].
Proof.
  split; [vm_compute; lia|].
  destruct (proj2 (first_reference_within_threshold_wins
                     "5" poseB (start worldA))
              "poseA.jpg" poseA [] [("poseB.jpg", poseB)]) as [H _].
  - reflexivity.
  - constructor.
  - vm_compute. lia.
  - rewrite H. reflexivity.
Defined.


Lemma failing_item_is_skipped_and_the_run_continues_witness :
  outcome (evaluate (item "9") (start worldC)) = Throw (Error "Request failed")
  /\ newCensoredList (final (process_item (item "9") (start worldC))) = []
  /\ outcome (for_of [item "9"; item "12"] process_item (start worldC))
     = Normal tt.
Proof.
  pose proof (failing_item_is_skipped_and_the_run_continues
                (item "9") [item "12"] (start worldC))
    as (_ & Loop & _ & Failed & Metadata & _).
  split.
  - apply (Metadata "meta/9" (Error "Request failed") worldC); reflexivity.
  - split; [|exact Loop].
    apply (Failed (Error "Request failed")). reflexivity.
Defined.

Lemma fetch_degrades_to_the_empty_list_witness :
  outcome (getCurrentCensoredList (start worldB)) = Normal []
  /\ outcome (getCurrentCensoredList (start worldA)) = Normal [("5", true)].
Proof.
  split.
  - apply (proj1 (proj2 (fetch_degrades_to_the_empty_list (start worldB)))
             (Error "Request failed with status code 404") worldB).
    reflexivity.
  - rewrite (proj2 (proj2 (fetch_degrades_to_the_empty_list (start worldA)))
               {| data := Some {| files :=
                    Some [(GIST_FILENAME,
                           {| content := document ["5"] |})] |} |} worldA);
      reflexivity.
Defined.

Lemma gist_is_updated_only_when_the_list_changed_witness :
  existsb is_patch (emitted (runCurator (start worldA))) = false
  /\ exists previous items,
       outcome (prepare (start worldB)) = Normal (previous, items)
       /\ list_changed previous
            (newCensoredList
               (final (for_of items process_item
                         (final (prepare (start worldB))))))
          = true.
Proof.
  split.
  - apply (proj2 (proj2 (gist_is_updated_only_when_the_list_changed
                           (start worldA)))
             [("5", true)] [item "5"; item "7"]); reflexivity.
  - destruct (proj1 (gist_is_updated_only_when_the_list_changed
                       (start worldB)) (document ["12"]))
      as (previous & items & P & Ch & _).
    + vm_compute. repeat (first [left; reflexivity | right]).
    + exists previous, items. now split.
Defined.

End ScenarioFacts.

(** * Further properties *)

(** ** The comparator as a distance *)

Lemma count_diff_triangle a :
  forall b c, count_diff a c <= count_diff a b + count_diff b c.
Proof.
  induction a as [|x a IH]; intros [|y b] [|z c]; simpl; try lia.
  - pose proof (count_diff_le_length a c).
    rewrite count_diff_empty. destruct (Ascii.eqb x z); lia.
  - specialize (IH b EmptyString). lia.
  - specialize (IH b c).
    destruct (Ascii.eqb_spec x z), (Ascii.eqb_spec x y), (Ascii.eqb_spec y z);
      try lia; congruence.
Qed.

Lemma count_diff_zero_prefix a :
  forall b, count_diff a b = 0 <-> String.prefix a b = true.
Proof.
  induction a as [|x a IH]; intros [|y b]; simpl.
  - tauto.
  - tauto.
  - split; [lia | discriminate].
  - destruct (ascii_dec x y) as [->|N].
    + rewrite Ascii.eqb_refl. apply IH.
    + apply Ascii.eqb_neq in N. rewrite N. split; [lia | discriminate].
Qed.

Lemma prefix_same_length a :
  forall b, String.length a = String.length b ->
            String.prefix a b = true -> a = b.
Proof.
  induction a as [|x a IH]; intros [|y b] L P; simpl in *; try discriminate.
  - reflexivity.
  - destruct (ascii_dec x y) as [->|N]; [|discriminate].
    f_equal. apply IH; [lia | exact P].
Qed.

(** X1: the distance never exceeds the length of the first signature, and
    when the second signature is not longer it is at least the difference
    of the two lengths. *)
Theorem distance_bounds :
  forall hash1 hash2 : string,
    calculateHammingDistance hash1 hash2 <= String.length hash1
    /\ (String.length hash2 <= String.length hash1 ->
        String.length hash1 - String.length hash2
        <= calculateHammingDistance hash1 hash2).
Proof.
  intros hash1 hash2. split.
  - rewrite calculateHammingDistance_count_diff. apply count_diff_le_length.
  - intros H. rewrite calculateHammingDistance_short_second by exact H. lia.
Qed.

Lemma distance_bounds_witness :
  calculateHammingDistance "abcd" "ax" <= 4
  /\ 2 <= calculateHammingDistance "abcd" "ax".
Proof.
  destruct (distance_bounds "abcd" "ax") as [Upper Lower].
  split; [exact Upper | apply Lower; simpl; lia].
Defined.

(** X2: the distance is 0 exactly when the first signature is a prefix of
    the second; on signatures of equal length, exactly when they are
    equal. *)
Theorem distance_zero_iff_prefix :
  forall hash1 hash2 : string,
    (calculateHammingDistance hash1 hash2 = 0
     <-> String.prefix hash1 hash2 = true)
    /\ (String.length hash1 = String.length hash2 ->
        (calculateHammingDistance hash1 hash2 = 0 <-> hash1 = hash2)).
Proof.
  intros hash1 hash2. rewrite calculateHammingDistance_count_diff.
  split; [apply count_diff_zero_prefix|].
  intros L. split.
  - intros H. apply prefix_same_length; [exact L|].
    now apply count_diff_zero_prefix.
  - intros ->. apply count_diff_refl.
Qed.

Lemma distance_zero_iff_prefix_witness :
  calculateHammingDistance "ab" "abcd" = 0
  /\ (calculateHammingDistance "abcd" "abcd" = 0 <-> "abcd" = "abcd").
Proof.
  destruct (distance_zero_iff_prefix "ab" "abcd") as [Prefix _].
  destruct (distance_zero_iff_prefix "abcd" "abcd") as [_ Equal].
  split; [apply Prefix; reflexivity | apply Equal; reflexivity].
Defined.

(** X3: the distance satisfies the triangle inequality, whatever the
    lengths of the three signatures. *)
Theorem distance_triangle :
  forall a b c : string,
    calculateHammingDistance a c
    <= calculateHammingDistance a b + calculateHammingDistance b c.
Proof.
  intros a b c. rewrite !calculateHammingDistance_count_diff.
  apply count_diff_triangle.
Qed.

(** ** Stepping through the script *)

Import Trace.

Section Steps.
Context {World : Type} {io : Collaborators World}.

Lemma bind_console {B} line (k : unit -> M World B) (s : state World) :
  bind (console_log line) k s = prepend [Console line] (k tt s).
Proof. reflexivity. Qed.

Lemma bind_ret {A B} (a : A) (k : A -> M World B) (s : state World) :
  bind (ret a) k s = prepend [] (k a s).
Proof. reflexivity. Qed.

Lemma bind_external_normal {A B} ev (op : World -> completion A * World)
      (k : A -> M World B) (s : state World) a w :
  op (world s) = (Normal a, w) ->
  bind (external ev op) k s
  = prepend [ev] (k a {| world := w; newCensoredList := newCensoredList s |}).
Proof. intros H. unfold bind, external. now rewrite H. Qed.

Lemma bind_external_throw {A B} ev (op : World -> completion A * World)
      (k : A -> M World B) (s : state World) e w :
  op (world s) = (Throw e, w) ->
  bind (external ev op) k s
  = {| outcome := Throw e;
       final := {| world := w; newCensoredList := newCensoredList s |};
       emitted := [ev] |}.
Proof. intros H. unfold bind, external. now rewrite H. Qed.

Lemma bind_exists_sync {B} path (k : bool -> M World B) (s : state World) b w :
  fs_existsSync path (world s) = (b, w) ->
  bind (exists_sync path) k s
  = prepend [ExistsSync path]
      (k b {| world := w; newCensoredList := newCensoredList s |}).
Proof. intros H. unfold bind, exists_sync, external. now rewrite H. Qed.

Lemma bind_member_some {A B} (a : A) (k : A -> M World B) (s : state World) :
  bind (member (Some a)) k s = prepend [] (k a s).
Proof. reflexivity. Qed.

Lemma bind_member_none {A B} (k : A -> M World B) (s : state World) :
  bind (member None) k s
  = {| outcome := Throw (TypeError "Cannot read properties of undefined");
       final := s; emitted := [] |}.
Proof. reflexivity. Qed.

Lemma bind_lift_normal {A B} (a : A) (k : A -> M World B) (s : state World) :
  bind (lift (Normal a)) k s = prepend [] (k a s).
Proof. reflexivity. Qed.

Lemma bind_lift_throw {A B} e (k : A -> M World B) (s : state World) :
  bind (lift (Throw e)) k s
  = {| outcome := Throw e; final := s; emitted := [] |}.
Proof. reflexivity. Qed.

Lemma match_loop_emitted id newHash entries (s : state World) :
  loop_events (emitted (match_loop id newHash entries s)).
Proof.
  induction entries as [|[n h] entries IH].
  - now left.
  - destruct (Nat.leb_spec (calculateHammingDistance newHash h)
                           SIMILARITY_THRESHOLD) as [H|H].
    + rewrite match_loop_cons_near by exact H. right.
      do 2 eexists. reflexivity.
    + rewrite match_loop_cons_far by exact H. exact IH.
Qed.

(** The trace of the [try] block of an item. *)
Lemma evaluate_emitted item (s : state World) :
  exists tail,
    emitted (evaluate item s)
    = Console (LogEvaluating (tokenId item)) :: tail
    /\ turn_tail item tail.
Proof.
  unfold evaluate. rewrite bind_console. cbn [prepend emitted app].
  eexists. split; [reflexivity|].
  destruct (truthy (tokenUri item)) as [uri|] eqn:U;
    [|now apply tail_no_uri].
  destruct (axios_get uri (world s)) as [[response|e] w1] eqn:G;
    [|rewrite (bind_external_throw _ _ _ _ _ _ G);
      now apply tail_metadata_failed].
  rewrite (bind_external_normal _ _ _ _ _ _ G). cbn [prepend emitted app].
  destruct (metadata_data response) as [response_data|];
    [|rewrite bind_member_none; now apply tail_metadata_failed].
  rewrite bind_member_some. cbn [prepend emitted app].
  destruct (truthy (image response_data)) as [imageUrl|];
    [|now apply tail_no_image].
  match goal with
  | |- context [bind (external _ (Jimp_read _)) _ ?st] =>
      destruct (Jimp_read imageUrl (world st)) as [[picture|e] w2] eqn:R
  end;
    [|rewrite (bind_external_throw _ _ _ _ _ _ R);
      now apply tail_image_failed with (url := imageUrl)].
  rewrite (bind_external_normal _ _ _ _ _ _ R). cbn [prepend emitted app].
  destruct (pHash picture) as [newHash|e];
    [|rewrite bind_lift_throw; now apply tail_image_failed with (url := imageUrl)].
  rewrite bind_lift_normal. cbn [prepend emitted app].
  match goal with
  | |- context [bind (exists_sync ?p) _ ?st] =>
      destruct (fs_existsSync p (world st)) as [saved w3] eqn:X;
      rewrite (bind_exists_sync _ _ _ _ _ X)
  end.
  cbn [prepend emitted app].
  destruct saved; cbn [negb].
  - rewrite bind_ret. cbn [prepend emitted app].
    apply (tail_cached item uri imageUrl _ U), match_loop_emitted.
  - match goal with
    | |- context [bind (bind (external _ (image_write ?i ?p)) _) _ ?st] =>
        destruct (image_write i p (world st)) as [[[]|e] w4] eqn:W
    end.
    + unfold bind at 1. rewrite (bind_external_normal _ _ _ _ _ _ W).
      cbn [prepend emitted app outcome final console_log].
      apply (tail_saved item uri imageUrl _ U), match_loop_emitted.
    + unfold bind at 1. rewrite (bind_external_throw _ _ _ _ _ _ W).
      cbn [outcome emitted].
      now apply tail_write_failed with (url := imageUrl).
Qed.

End Steps.

(** ** The turns of the loop, seen from outside *)

Section TurnFacts.
Context {World : Type} {io : Collaborators World}.

Lemma process_item_emitted item (s : state World) :
  emitted (process_item item s)
  = (emitted (evaluate item s)
     ++ match outcome (evaluate item s) with
        | Normal _ => []
        | Throw e => [Console (LogFailed (tokenId item) (error_message e))]
        end)%list.
Proof.
  unfold process_item, try_catch.
  destruct (outcome (evaluate item s)); cbn [emitted console_log].
  - now rewrite app_nil_r.
  - reflexivity.
Qed.

Lemma external_calls_app l1 l2 :
  external_calls (l1 ++ l2) = (external_calls l1 ++ external_calls l2)%list.
Proof. apply filter_app. Qed.

Lemma evaluated_ids_app l1 l2 :
  evaluated_ids (l1 ++ l2) = (evaluated_ids l1 ++ evaluated_ids l2)%list.
Proof. apply flat_map_app. Qed.

Lemma external_calls_failed_line item (r : completion unit) :
  external_calls
    match r with
    | Normal _ => []
    | Throw e => [Console (LogFailed (tokenId item) (error_message e))]
    end = [].
Proof. now destruct r. Qed.

(** X4: in one turn of the loop the script calls out at most four times,
    in a fixed order and each at most once: the metadata request for the
    item's own [tokenUri], one image read, one existence check and one
    write, both for the item's own image path.  An item without a
    [tokenUri] causes no call at all. *)
Theorem turn_calls_are_ordered_and_own :
  forall (item : nft) (s : state World),
    match truthy (tokenUri item) with
    | None => external_calls (emitted (process_item item s)) = []
    | Some uri =>
        exists url,
          initial_part (external_calls (emitted (process_item item s)))
            [MetadataGet uri; ImageRead url;
             ExistsSync (image_path item); ImageWrite (image_path item)]
    end.
Proof.
  intros item s. rewrite process_item_emitted, external_calls_app.
  rewrite external_calls_failed_line, app_nil_r.
  destruct (evaluate_emitted item s) as (tail & -> & Shape).
  cbn [external_calls filter is_external].
  fold (external_calls tail).
  destruct Shape as [U|uri U|uri U|uri url U|uri url loop U L
                     |uri url U|uri url loop U L]; rewrite U.
  - reflexivity.
  - exists EmptyString. eexists. reflexivity.
  - exists EmptyString. eexists. reflexivity.
  - exists url. eexists. reflexivity.
  - exists url. destruct L as [->|(n & d & ->)]; eexists; reflexivity.
  - exists url. exists []. reflexivity.
  - exists url. destruct L as [->|(n & d & ->)]; exists []; reflexivity.
Qed.

Lemma evaluated_ids_turn item (s : state World) :
  evaluated_ids (emitted (process_item item s)) = [tokenId item].
Proof.
  rewrite process_item_emitted, evaluated_ids_app.
  destruct (evaluate_emitted item s) as (tail & -> & Shape).
  assert (T : evaluated_ids tail = []).
  { destruct Shape as [U|uri U|uri U|uri url U|uri url loop U L
                       |uri url U|uri url loop U L];
      try reflexivity;
      destruct L as [->|(n & d & ->)]; reflexivity. }
  cbn [evaluated_ids flat_map]. fold (evaluated_ids tail). rewrite T.
  now destruct (outcome _).
Qed.

(** X5: the loop evaluates every enumerated item exactly once, in the
    order of the enumeration, whatever fails on the way: the "Evaluating"
    lines of the loop name the ids of the items one by one. *)
Theorem every_item_is_evaluated_once_in_order :
  forall (items : list nft) (s : state World),
    evaluated_ids (emitted (for_of items process_item s))
    = map tokenId items.
Proof.
  induction items as [|item items IH]; intros s.
  - reflexivity.
  - destruct (for_of_process_cons item items s) as [_ ->].
    rewrite evaluated_ids_app, evaluated_ids_turn, IH. reflexivity.
Qed.

End TurnFacts.

(** ** The list that is built *)

Lemma obj_set_nodup {V} (o : jsobject V) k v :
  NoDup (map fst o) -> NoDup (map fst (obj_set o k v)).
Proof.
  intros H. destruct (in_dec string_dec k (map fst o)) as [I|N].
  - now rewrite obj_set_keys_old.
  - rewrite obj_set_keys_new by exact N.
    apply NoDup_app; [exact H | repeat constructor; intros [] |].
    intros x Hx [<-|[]]. contradiction.
Qed.

Lemma obj_set_values (o : jsobject bool) k :
  (forall p, In p o -> snd p = true) ->
  forall p, In p (obj_set o k true) -> snd p = true.
Proof.
  induction o as [|[k' v'] o IH]; simpl; intros H p.
  - intros [<-|[]]. reflexivity.
  - destruct (String.eqb k' k).
    + intros [<-|I]; [reflexivity | apply H; now right].
    + intros [<-|I]; [apply (H (k', v')); now left|].
      apply IH; [|exact I]. intros q Hq. apply H. now right.
Qed.

Lemma obj_set_length {V} (o : jsobject V) k v :
  List.length (obj_set o k v) <= S (List.length o).
Proof.
  induction o as [|[k' v'] o IH]; simpl.
  - lia.
  - destruct (String.eqb k' k); simpl; lia.
Qed.

Lemma fold_obj_set_invariant ids :
  forall o : jsobject bool,
    NoDup (map fst o) ->
    (forall p, In p o -> snd p = true) ->
    let built := fold_left (fun o id => obj_set o id true) ids o in
    NoDup (map fst built)
    /\ (forall p, In p built -> snd p = true)
    /\ List.length built <= List.length o + List.length ids.
Proof.
  induction ids as [|id ids IH]; intros o N T; cbn [fold_left].
  - repeat split; [exact N | exact T | simpl; lia].
  - destruct (IH (obj_set o id true)) as (N' & T' & L').
    + now apply obj_set_nodup.
    + now apply obj_set_values.
    + repeat split; [exact N' | exact T' |].
      pose proof (obj_set_length o id true). simpl in *. lia.
Qed.

Section BuiltList.
Context {World : Type} {io : Collaborators World}.

Lemma matched_ids_length items :
  forall s : state World,
    List.length (matched_ids items s) <= List.length items.
Proof.
  induction items as [|item items IH]; intros s; cbn [matched_ids].
  - simpl. lia.
  - rewrite length_app. specialize (IH (final (process_item item s))).
    destruct (announces_match _); simpl; lia.
Qed.

(** X6: the list a run builds is a set of ids: once the collection is
    enumerated, the list at the end of the run has no key twice (an id
    enumerated or matched twice is recorded once), every value is [true],
    and it has at most as many keys as items were enumerated. *)
Theorem built_list_is_a_set_of_true_flags :
  forall (s : state World) (previous : jsobject bool) (items : list nft),
    outcome (prepare s) = Normal (previous, items) ->
    let built := newCensoredList (final (runCurator s)) in
    NoDup (Object_keys built)
    /\ (forall k v, In (k, v) built -> v = true)
    /\ List.length (Object_keys built) <= List.length items.
Proof.
  intros s previous items P built.
  destruct (runCurator_prepared s previous items P) as (_ & Fin & _).
  assert (Built : built
                  = fold_left (fun o id => obj_set o id true)
                      (matched_ids items (final (prepare s))) []).
  { subst built.
    rewrite Fin, publish_if_changed_list, for_of_process_list.
    now rewrite (prepare_starts_empty s _ P). }
  destruct (fold_obj_set_invariant (matched_ids items (final (prepare s))) [])
    as (N & T & L); [constructor | intros p [] |].
  rewrite <- Built in N, T, L.
  pose proof (matched_ids_length items (final (prepare s))) as M.
  split; [|split].
  - eapply Permutation_NoDup; [|exact N].
    apply Permutation_sym, Object_keys_perm.
  - intros k v I. apply (T (k, v) I).
  - rewrite (Permutation_length (Object_keys_perm built)), length_map.
    cbn [List.length Nat.add] in L. lia.
Qed.

End BuiltList.

(** ** Events that a part of the run never emits *)

Section FreeOf.
Context {World : Type} {io : Collaborators World}.
Variable P : event -> bool.

Lemma free_of_ret {A} (a : A) : free_of (World:=World) P (ret a).
Proof. intros s. reflexivity. Qed.

Lemma free_of_throw {A} e : free_of P (@throw World A e).
Proof. intros s. reflexivity. Qed.

Lemma free_of_lift {A} (c : completion A) : free_of (World:=World) P (lift c).
Proof. destruct c; [apply free_of_ret | apply free_of_throw]. Qed.

Lemma free_of_member {A} (x : option A) :
  free_of (World:=World) P (member x).
Proof. destruct x; [apply free_of_ret | apply free_of_throw]. Qed.

Lemma free_of_get : free_of (World:=World) P get_newCensoredList.
Proof. intros s. reflexivity. Qed.

Lemma free_of_put o : free_of (World:=World) P (put_newCensoredList o).
Proof. intros s. reflexivity. Qed.

Lemma free_of_console line :
  P (Console line) = false -> free_of (World:=World) P (console_log line).
Proof. intros H s. cbn [console_log emitted existsb]. now rewrite H. Qed.

Lemma free_of_external {A} ev (op : World -> completion A * World) :
  P ev = false -> free_of P (external ev op).
Proof.
  intros H s. unfold external. destruct (op (world s)).
  cbn [emitted existsb]. now rewrite H.
Qed.

Lemma free_of_exists_sync path :
  P (ExistsSync path) = false -> free_of P (exists_sync path).
Proof. apply free_of_external. Qed.

Lemma free_of_bind {A B} (m : M World A) (k : A -> M World B) :
  free_of P m -> (forall a, free_of P (k a)) -> free_of P (bind m k).
Proof.
  intros Hm Hk s. unfold bind.
  destruct (outcome (m s)) as [a|e]; cbn [emitted].
  - now rewrite existsb_app, Hm, Hk.
  - apply Hm.
Qed.

Lemma free_of_try_catch {A} (m : M World A) handler :
  free_of P m -> (forall e, free_of P (handler e)) ->
  free_of P (try_catch m handler).
Proof.
  intros Hm Hh s. unfold try_catch.
  destruct (outcome (m s)) as [a|e]; cbn [emitted].
  - apply Hm.
  - now rewrite existsb_app, Hm, Hh.
Qed.

Lemma free_of_match_loop id newHash entries :
  (forall name distance, P (Console (LogMatch name distance)) = false) ->
  free_of (World:=World) P (match_loop id newHash entries).
Proof.
  intros H s.
  destruct (match_loop_emitted id newHash entries s) as [->|(n & d & ->)].
  - reflexivity.
  - cbn [existsb]. now rewrite H.
Qed.

Lemma free_of_for_of {A} (items : list A) (body : A -> M World unit) :
  (forall x, free_of P (body x)) -> free_of P (for_of items body).
Proof.
  intros H. induction items as [|x items IH]; cbn [for_of].
  - apply free_of_ret.
  - apply free_of_bind; [apply H | intros _; exact IH].
Qed.

End FreeOf.

(** Takes a sequence of statements apart and settles each statement by
    the lemma for its kind; the side conditions are closed by evaluating
    the test on the event. *)
Ltac free_of_steps :=
  repeat first
    [ apply free_of_ret
    | apply free_of_throw
    | apply free_of_lift
    | apply free_of_member
    | apply free_of_get
    | apply free_of_put
    | apply free_of_console; reflexivity
    | apply free_of_exists_sync; reflexivity
    | apply free_of_external; reflexivity
    | apply free_of_match_loop; reflexivity
    | apply free_of_bind; [|intro]
    | apply free_of_try_catch; [|intro]
    | match goal with
      | |- free_of _ (if ?b then _ else _) => destruct b
      | |- free_of _ (match ?x with _ => _ end) => destruct x
      end ].

Section RunShape.
Context {World : Type} {io : Collaborators World}.

Lemma bind_normal_step {A B} (m : M World A) (k : A -> M World B) s a :
  outcome (m s) = Normal a ->
  bind m k s = prepend (emitted (m s)) (k a (final (m s))).
Proof. intros H. unfold bind. now rewrite H. Qed.

Lemma bind_throw_step {A B} (m : M World A) (k : A -> M World B) s e :
  outcome (m s) = Throw e ->
  bind m k s
  = {| outcome := Throw e; final := final (m s); emitted := emitted (m s) |}.
Proof. intros H. unfold bind. now rewrite H. Qed.

Lemma getCurrentCensoredList_free_of P :
  P (Console LogFetchingGist) = false -> P GistGet = false ->
  P (Console LogCouldNotFetch) = false ->
  free_of (World:=World) P getCurrentCensoredList.
Proof.
  intros H1 H2 H3. unfold getCurrentCensoredList.
  apply free_of_try_catch.
  - apply free_of_bind; [now apply free_of_console|]. intros _.
    apply free_of_bind; [now apply free_of_external|]. intros response.
    free_of_steps.
  - intros e. apply free_of_bind; [now apply free_of_console|].
    intros _. apply free_of_ret.
Qed.

Lemma prepare_free_of_updated :
  free_of (World:=World) is_updated_line prepare.
Proof.
  unfold prepare.
  apply free_of_bind; [free_of_steps|]. intros _.
  apply free_of_bind; [free_of_steps|]. intros present.
  apply free_of_bind; [free_of_steps|]. intros _.
  apply free_of_bind; [now apply getCurrentCensoredList_free_of|].
  intros current. free_of_steps.
Qed.


Lemma process_item_free_of_updated item :
  free_of (World:=World) is_updated_line (process_item item).
Proof. unfold process_item, evaluate. free_of_steps. Qed.

Lemma loop_free_of_updated items :
  free_of (World:=World) is_updated_line (for_of items process_item).
Proof. apply free_of_for_of, process_item_free_of_updated. Qed.

End RunShape.

(** ** The run as a whole *)

Section WholeRun.
Context {World : Type} {io : Collaborators World}.

(** X7: the script as started never ends in an unhandled error: [main]
    always completes normally, in the state [runCurator] left, and its
    last line is "finished successfully" when [runCurator] completed and
    the "fatal error" line with the error's message when it threw. *)
Theorem main_never_throws :
  forall s : state World,
    outcome (main s) = Normal tt
    /\ final (main s) = final (runCurator s)
    /\ emitted (main s)
       = (emitted (runCurator s)
          ++ [Console match outcome (runCurator s) with
                      | Normal _ => LogFinished
                      | Throw e => LogFatal (error_message e)
                      end])%list.
Proof.
  intros s. unfold main, try_catch, bind, console_log.
  destruct (outcome (runCurator s)) as [[]|e];
    cbn [outcome final emitted]; now repeat split.
Qed.

(** X8: fetching the published list sends exactly one request and never
    retries, leaves the list being built alone, and logs "could not
    fetch" exactly when it ends in its [catch]; a response in which the
    file is absent gives the empty list without that line. *)
Theorem fetch_sends_one_request_and_logs_only_errors :
  forall s : state World,
    let r := getCurrentCensoredList s in
    newCensoredList (final r) = newCensoredList s
    /\ world (final r) = snd (axios_get_gist (world s))
    /\ emitted r
       = ([Console LogFetchingGist; GistGet]
          ++ if fetch_error (fst (axios_get_gist (world s)))
             then [Console LogCouldNotFetch] else [])%list.
Proof.
  intros s r. subst r.
  unfold getCurrentCensoredList, try_catch.
  rewrite bind_console. cbn [prepend outcome final emitted app].
  destruct (axios_get_gist (world s)) as [[response|e] w] eqn:G.
  - rewrite (bind_external_normal _ _ _ _ _ _ G).
    cbn [prepend outcome final emitted app fst snd fetch_error].
    destruct (data response) as [response_data|];
      [|now rewrite bind_member_none].
    rewrite bind_member_some. cbn [prepend outcome final emitted app].
    destruct (files response_data) as [response_files|];
      [|now rewrite bind_member_none].
    rewrite bind_member_some. cbn [prepend outcome final emitted app].
    destruct (obj_get response_files GIST_FILENAME) as [file|];
      [|now repeat split].
    destruct (JSON_parse (content file)); now repeat split.
  - rewrite (bind_external_throw _ _ _ _ _ _ G). now repeat split.
Qed.

Lemma getCurrentCensoredList_normal (s : state World) :
  exists list, outcome (getCurrentCensoredList s) = Normal list.
Proof.
  unfold getCurrentCensoredList, try_catch.
  match goal with
  | |- exists l, outcome (match outcome ?r with _ => _ end) = _ =>
      destruct (outcome r) as [a|e] eqn:O
  end.
  - exists a. exact O.
  - eexists. reflexivity.
Qed.


Lemma publish_if_changed_cases previous (s : state World) :
  let document := JSON_stringify_object show_bool (newCensoredList s) in
  let changed :=
    Console (LogChanged
               (List.length (Array_sort (Object_keys previous)))
               (List.length (Array_sort (Object_keys (newCensoredList s))))) in
  (outcome (publish_if_changed previous s) = Normal tt
   /\ emitted (publish_if_changed previous s) = [Console LogNoChanges])
  \/ (outcome (publish_if_changed previous s) = Normal tt
      /\ emitted (publish_if_changed previous s)
         = [changed; Console LogUpdating; GistPatch document;
            Console LogUpdated])
  \/ (exists e,
         outcome (publish_if_changed previous s) = Throw e
         /\ emitted (publish_if_changed previous s)
            = [changed; Console LogUpdating; GistPatch document]).
Proof.
  intros document changed. subst document changed.
  unfold publish_if_changed.
  rewrite (bind_normal_step get_newCensoredList _ s (newCensoredList s)
             eq_refl).
  cbn [prepend get_newCensoredList outcome final emitted app].
  destruct (list_changed previous (newCensoredList s)).
  - rewrite !bind_console. cbn [prepend outcome emitted app].
    destruct (axios_patch (JSON_stringify_object show_bool (newCensoredList s))
                (world s)) as [[[]|e] w] eqn:A.
    + rewrite (bind_external_normal _ _ _ _ _ _ A). right. left.
      now split.
    + rewrite (bind_external_throw _ _ _ _ _ _ A). right. right.
      exists e. now split.
  - left. now split.
Qed.

Lemma filter_none {A} (P : A -> bool) l :
  existsb P l = false -> filter P l = [].
Proof.
  induction l as [|x l IH]; simpl; [reflexivity|].
  destruct (P x); simpl; [discriminate | exact IH].
Qed.

(** X10: the gist is updated at most once in a run, and the run logs
    "Gist updated successfully" exactly when an update was sent and the
    run completed normally: a rejected update ends the run with the error
    and without that line. *)
Theorem update_is_sent_at_most_once_and_reported_when_accepted :
  forall s : state World,
    List.length (filter is_patch (emitted (runCurator s))) <= 1
    /\ (existsb is_updated_line (emitted (runCurator s)) = true
        <-> outcome (runCurator s) = Normal tt
            /\ existsb is_patch (emitted (runCurator s)) = true).
Proof.
  intros s.
  destruct (outcome (prepare s)) as [[previous items]|e] eqn:P.
  - destruct (runCurator_prepared s previous items P) as (-> & _ & ->).
    rewrite !filter_app, !length_app, !existsb_app.
    rewrite (filter_none _ _ (prepare_patch_free s)).
    rewrite (filter_none _ _
               (for_of_process_patch_free items (final (prepare s)))).
    cbn [List.length].
    rewrite prepare_patch_free, for_of_process_patch_free.
    rewrite prepare_free_of_updated, loop_free_of_updated.
    cbn [orb Nat.add].
    destruct (publish_if_changed_cases previous
                (final (for_of items process_item (final (prepare s)))))
      as [(-> & ->)|[(-> & ->)|(e & -> & ->)]]; cbn.
    + split; [lia|]. split; [discriminate | intros [_ H]; discriminate].
    + split; [lia|]. split; auto.
    + split; [lia|]. split; [discriminate | intros [H _]; discriminate].
  - assert (R : runCurator s
                = {| outcome := Throw e; final := final (prepare s);
                     emitted := emitted (prepare s) |}).
    { unfold runCurator. now apply bind_throw_step. }
    rewrite R. cbn [outcome emitted].
    rewrite prepare_free_of_updated.
    rewrite (filter_none _ _ (prepare_patch_free s)).
    split; [simpl; lia|].
    split; [discriminate | intros [H _]; discriminate].
Qed.

End WholeRun.

(** ** An item that resolves *)

Section ResolvedItem.
Context {World : Type} {io : Collaborators World}.

Lemma match_loop_result id newHash entries :
  forall s : state World,
    outcome (match_loop id newHash entries s) = Normal tt
    /\ world (final (match_loop id newHash entries s)) = world s
    /\ newCensoredList (final (match_loop id newHash entries s))
       = if some_reference_near newHash entries
         then obj_set (newCensoredList s) id true
         else newCensoredList s.
Proof.
  induction entries as [|[name hash] entries IH]; intros s.
  - now repeat split.
  - cbn [some_reference_near existsb snd].
    destruct (Nat.leb_spec (calculateHammingDistance newHash hash)
                           SIMILARITY_THRESHOLD) as [H|H].
    + rewrite match_loop_cons_near by exact H. now repeat split.
    + rewrite match_loop_cons_far by exact H. apply IH.
Qed.

Let at_world (w : World) (s : state World) : state World :=
  {| world := w; newCensoredList := newCensoredList s |}.

(** The [try] block up to the existence check, when everything before
    it succeeds. *)
Lemma evaluate_resolved item (s : state World)
      uri response w1 response_data imageUrl picture w2 newHash saved w3 :
  truthy (tokenUri item) = Some uri ->
  axios_get uri (world s) = (Normal response, w1) ->
  metadata_data response = Some response_data ->
  truthy (image response_data) = Some imageUrl ->
  Jimp_read imageUrl w1 = (Normal picture, w2) ->
  pHash picture = Normal newHash ->
  fs_existsSync (image_path item) w2 = (saved, w3) ->
  evaluate item s
  = prepend [Console (LogEvaluating (tokenId item)); MetadataGet uri;
             ImageRead imageUrl; ExistsSync (image_path item)]
      (((if negb saved then
           external (ImageWrite (image_path item))
             (image_write picture (image_path item)) ;;
           console_log (LogSaved (image_path item))
         else ret tt) ;;
        match_loop (tokenId item) newHash (own_entries masterHashes))
         {| world := w3; newCensoredList := newCensoredList s |}).
Proof.
  intros U G D I R P X. unfold evaluate, image_path in *.
  rewrite bind_console, U. cbv beta iota.
  rewrite (bind_external_normal _ _ _ _ _ _ G), D.
  rewrite bind_member_some, I. cbv beta iota.
  rewrite (bind_external_normal _ _ _ (at_world w1 s) _ _ R), P,
    bind_lift_normal.
  rewrite (bind_exists_sync _ _ (at_world w2 s) _ _ X).
  unfold prepend. cbn [outcome final emitted app newCensoredList].
  reflexivity.
Qed.

(** X11: an item whose metadata, image and signature are obtained, and
    whose image is already kept or is saved now, completes its turn
    normally and is recorded exactly when some reference of the store is
    within the threshold of its signature; otherwise the list is as it
    was. *)
Theorem resolved_item_is_recorded_iff_a_reference_is_near :
  forall (item : nft) (s : state World)
         uri response w1 response_data imageUrl picture w2 newHash
         saved w3 w4,
    truthy (tokenUri item) = Some uri ->
    axios_get uri (world s) = (Normal response, w1) ->
    metadata_data response = Some response_data ->
    truthy (image response_data) = Some imageUrl ->
    Jimp_read imageUrl w1 = (Normal picture, w2) ->
    pHash picture = Normal newHash ->
    fs_existsSync (image_path item) w2 = (saved, w3) ->
    (if saved then w4 = w3
     else image_write picture (image_path item) w3 = (Normal tt, w4)) ->
    outcome (evaluate item s) = Normal tt
    /\ world (final (process_item item s)) = w4
    /\ newCensoredList (final (process_item item s))
       = if some_reference_near newHash (own_entries masterHashes)
         then obj_set (newCensoredList s) (tokenId item) true
         else newCensoredList s.
Proof.
  intros item s uri response w1 response_data imageUrl picture w2 newHash
         saved w3 w4 U G D I R P X W.
  assert (E : outcome (evaluate item s) = Normal tt
              /\ world (final (evaluate item s)) = w4
              /\ newCensoredList (final (evaluate item s))
                 = if some_reference_near newHash (own_entries masterHashes)
                   then obj_set (newCensoredList s) (tokenId item) true
                   else newCensoredList s).
  { rewrite (evaluate_resolved item s _ _ _ _ _ _ _ _ _ _ U G D I R P X).
    cbn [prepend outcome final].
    destruct saved; cbn [negb].
    - subst w4. rewrite bind_ret. cbn [prepend outcome final].
      apply (match_loop_result (tokenId item) newHash
               (own_entries masterHashes)
               {| world := w3; newCensoredList := newCensoredList s |}).
    - match goal with
      | |- context [bind ?m ?k ?st] =>
          assert (Hm : m st
                       = {| outcome := Normal tt;
                            final := {| world := w4;
                                        newCensoredList :=
                                          newCensoredList s |};
                            emitted :=
                              [ImageWrite (image_path item);
                               Console (LogSaved (image_path item))] |})
            by (rewrite (bind_external_normal _ _ _ (at_world w3 s) _ _ W);
                reflexivity);
          rewrite (bind_normal_step m k st tt) by (now rewrite Hm);
          rewrite Hm
      end.
      cbn [prepend outcome final].
      apply (match_loop_result (tokenId item) newHash
               (own_entries masterHashes)
               {| world := w4; newCensoredList := newCensoredList s |}). }
  destruct E as (O & Wd & L). split; [exact O|].
  unfold process_item, try_catch. rewrite O. now split.
Qed.

(** X12: when the image of an item has to be saved and saving fails, the
    turn ends in the [catch]: the item is not recorded and no match is
    announced, whatever its signature, even one equal to a reference. *)
Theorem failed_save_drops_the_item :
  forall (item : nft) (s : state World)
         uri response w1 response_data imageUrl picture w2 newHash w3 e w4,
    truthy (tokenUri item) = Some uri ->
    axios_get uri (world s) = (Normal response, w1) ->
    metadata_data response = Some response_data ->
    truthy (image response_data) = Some imageUrl ->
    Jimp_read imageUrl w1 = (Normal picture, w2) ->
    pHash picture = Normal newHash ->
    fs_existsSync (image_path item) w2 = (false, w3) ->
    image_write picture (image_path item) w3 = (Throw e, w4) ->
    outcome (evaluate item s) = Throw e
    /\ newCensoredList (final (process_item item s)) = newCensoredList s
    /\ announces_match (emitted (process_item item s)) = false
    /\ emitted (process_item item s)
       = [Console (LogEvaluating (tokenId item)); MetadataGet uri;
          ImageRead imageUrl; ExistsSync (image_path item);
          ImageWrite (image_path item);
          Console (LogFailed (tokenId item) (error_message e))].
Proof.
  intros item s uri response w1 response_data imageUrl picture w2 newHash
         w3 e w4 U G D I R P X W.
  assert (E : evaluate item s
              = {| outcome := Throw e;
                   final := {| world := w4;
                               newCensoredList := newCensoredList s |};
                   emitted :=
                     [Console (LogEvaluating (tokenId item)); MetadataGet uri;
                      ImageRead imageUrl; ExistsSync (image_path item);
                      ImageWrite (image_path item)] |}).
  { rewrite (evaluate_resolved item s _ _ _ _ _ _ _ _ _ _ U G D I R P X).
    cbn [negb].
    match goal with
    | |- context [bind ?m ?k ?st] =>
        assert (Hm : m st
                     = {| outcome := Throw e;
                          final := {| world := w4;
                                      newCensoredList := newCensoredList s |};
                          emitted := [ImageWrite (image_path item)] |})
          by (now rewrite (bind_external_throw _ _ _ (at_world w3 s) _ _ W));
        rewrite (bind_throw_step m k st e) by (now rewrite Hm);
        rewrite Hm
    end.
    reflexivity. }
  split; [now rewrite E|].
  unfold process_item, try_catch. rewrite E.
  cbn [outcome final emitted console_log newCensoredList app].
  now repeat split.
Qed.

Lemma match_loop_announces_near id newHash entries :
  forall s : state World,
    announces_match (emitted (match_loop id newHash entries s))
    = some_reference_near newHash entries.
Proof.
  induction entries as [|[name hash] entries IH]; intros s.
  - reflexivity.
  - cbn [some_reference_near existsb snd].
    destruct (Nat.leb_spec (calculateHammingDistance newHash hash)
                           SIMILARITY_THRESHOLD) as [H|H].
    + rewrite match_loop_cons_near by exact H. reflexivity.
    + rewrite match_loop_cons_far by exact H. apply IH.
Qed.

(** The [try] block of an item that gets as far as the comparison. *)
Lemma evaluate_classified item (s : state World)
      uri response w1 response_data imageUrl picture w2 newHash saved w3 w4 :
  truthy (tokenUri item) = Some uri ->
  axios_get uri (world s) = (Normal response, w1) ->
  metadata_data response = Some response_data ->
  truthy (image response_data) = Some imageUrl ->
  Jimp_read imageUrl w1 = (Normal picture, w2) ->
  pHash picture = Normal newHash ->
  fs_existsSync (image_path item) w2 = (saved, w3) ->
  (if saved then w4 = w3
   else image_write picture (image_path item) w3 = (Normal tt, w4)) ->
  outcome (evaluate item s) = Normal tt
  /\ announces_match (emitted (evaluate item s))
     = some_reference_near newHash (own_entries masterHashes).
Proof.
  intros U G D I R P X W.
  rewrite (evaluate_resolved item s _ _ _ _ _ _ _ _ _ _ U G D I R P X).
  cbn [prepend outcome emitted]. unfold announces_match.
  rewrite existsb_app. cbn [existsb is_match_line orb].
  destruct saved; cbn [negb].
  - subst w4. rewrite bind_ret. cbn [prepend outcome emitted app]. split.
    + apply (match_loop_result (tokenId item) newHash
               (own_entries masterHashes)
               {| world := w3; newCensoredList := newCensoredList s |}).
    + apply match_loop_announces_near.
  - match goal with
    | |- context [bind ?m ?k ?st] =>
        assert (Hm : m st
                     = {| outcome := Normal tt;
                          final := {| world := w4;
                                      newCensoredList :=
                                        newCensoredList s |};
                          emitted :=
                            [ImageWrite (image_path item);
                             Console (LogSaved (image_path item))] |})
          by (rewrite (bind_external_normal _ _ _ (at_world w3 s) _ _ W);
              reflexivity);
        rewrite (bind_normal_step m k st tt) by (now rewrite Hm);
        rewrite Hm
    end.
    cbn [prepend outcome final emitted app existsb is_match_line orb]. split.
    + apply (match_loop_result (tokenId item) newHash
               (own_entries masterHashes)
               {| world := w4; newCensoredList := newCensoredList s |}).
    + apply match_loop_announces_near.
Qed.

(** What the [try] block of an item announces, and how it ends, read off
    the answers of the collaborators. *)
Lemma evaluate_announces item (s : state World) :
  announces_match (emitted (evaluate item s))
  = matches_a_reference item (world s)
  /\ (forall newHash,
         resolved_signature item (world s) = Some newHash ->
         outcome (evaluate item s) = Normal tt).
Proof.
  unfold matches_a_reference, resolved_signature.
  destruct (truthy (tokenUri item)) as [uri|] eqn:U.
  2:{ unfold evaluate. rewrite bind_console, U.
      split; [reflexivity | discriminate]. }
  destruct (axios_get uri (world s)) as [[response|e] w1] eqn:G.
  2:{ unfold evaluate. rewrite bind_console, U. cbv beta iota.
      rewrite (bind_external_throw _ _ _ _ _ _ G).
      split; [reflexivity | discriminate]. }
  destruct (metadata_data response) as [response_data|] eqn:D.
  2:{ unfold evaluate. rewrite bind_console, U. cbv beta iota.
      rewrite (bind_external_normal _ _ _ _ _ _ G), D, bind_member_none.
      split; [reflexivity | discriminate]. }
  destruct (truthy (image response_data)) as [imageUrl|] eqn:I.
  2:{ unfold evaluate. rewrite bind_console, U. cbv beta iota.
      rewrite (bind_external_normal _ _ _ _ _ _ G), D, bind_member_some, I.
      split; [reflexivity | discriminate]. }
  destruct (Jimp_read imageUrl w1) as [[picture|e] w2] eqn:R.
  2:{ unfold evaluate. rewrite bind_console, U. cbv beta iota.
      rewrite (bind_external_normal _ _ _ _ _ _ G), D, bind_member_some, I.
      cbv beta iota.
      rewrite (bind_external_throw _ _ _ (at_world w1 s) _ _ R).
      split; [reflexivity | discriminate]. }
  destruct (pHash picture) as [newHash|e] eqn:P.
  2:{ unfold evaluate. rewrite bind_console, U. cbv beta iota.
      rewrite (bind_external_normal _ _ _ _ _ _ G), D, bind_member_some, I.
      cbv beta iota.
      rewrite (bind_external_normal _ _ _ (at_world w1 s) _ _ R), P,
        bind_lift_throw.
      split; [reflexivity | discriminate]. }
  destruct (fs_existsSync (image_path item) w2) as [saved w3] eqn:X.
  destruct saved.
  - destruct (evaluate_classified item s _ _ _ _ _ _ _ _ _ _ w3
                U G D I R P X eq_refl) as [O A].
    split; [exact A | intros ? _; exact O].
  - destruct (image_write picture (image_path item) w3) as [[[]|e] w4] eqn:W.
    + destruct (evaluate_classified item s _ _ _ _ _ _ _ _ _ _ w4
                  U G D I R P X W) as [O A].
      split; [exact A | intros ? _; exact O].
    + rewrite (evaluate_resolved item s _ _ _ _ _ _ _ _ _ _ U G D I R P X).
      cbn [negb].
      match goal with
      | |- context [bind ?m ?k ?st] =>
          assert (Hm : m st
                       = {| outcome := Throw e;
                            final := {| world := w4;
                                        newCensoredList :=
                                          newCensoredList s |};
                            emitted := [ImageWrite (image_path item)] |})
            by (now rewrite (bind_external_throw _ _ _ (at_world w3 s) _ _ W));
          rewrite (bind_throw_step m k st e) by (now rewrite Hm);
          rewrite Hm
      end.
      split; [reflexivity | discriminate].
Qed.

Lemma process_item_announces item (s : state World) :
  announces_match (emitted (process_item item s))
  = matches_a_reference item (world s).
Proof.
  rewrite process_item_emitted. unfold announces_match.
  rewrite existsb_app.
  replace (existsb is_match_line
             match outcome (evaluate item s) with
             | Normal _ => []
             | Throw e => [Console (LogFailed (tokenId item) (error_message e))]
             end) with false by (now destruct (outcome (evaluate item s))).
  rewrite orb_false_r. apply evaluate_announces.
Qed.

Lemma matches_a_reference_iff item (w : World) :
  matches_a_reference item w = true
  <-> exists newHash name reference,
        resolved_signature item w = Some newHash
        /\ In (name, reference) (own_entries masterHashes)
        /\ calculateHammingDistance newHash reference <= SIMILARITY_THRESHOLD.
Proof.
  unfold matches_a_reference, some_reference_near.
  destruct (resolved_signature item w) as [newHash|].
  - rewrite existsb_exists. split.
    + intros ([name reference] & I & H). apply Nat.leb_le in H.
      exists newHash, name, reference. now repeat split.
    + intros (h & name & reference & E & I & H). injection E as <-.
      exists (name, reference). split; [exact I | now apply Nat.leb_le].
  - split; [discriminate | intros (h & _ & _ & E & _); discriminate].
Qed.

End ResolvedItem.

(** ** Rebuilding *)

Section Rebuilding.
Context {World : Type} {io : Collaborators World}.

(** C7: once the collection is enumerated the list is empty, whatever was
    published before; at the end of the run its keys are exactly the ids
    of the items that matched a reference in this run: the items for
    which, in the world their turn started in, the signature is obtained
    and some signature of [masterHashes] is at distance at most
    [SIMILARITY_THRESHOLD] from it.  The "Match found" line is logged in
    exactly those turns, and a turn that ends in an error obtained no
    signature.  So when no turn of an id of the previous list obtains a
    signature, that id is absent from the rebuilt list, the decision is
    "changed" and the gist is updated with the rebuilt list. *)
Theorem list_is_rebuilt_from_the_matches_of_this_run :
  forall (s : state World) (previous : jsobject bool) (items : list nft),
    outcome (prepare s) = Normal (previous, items) ->
    let built := newCensoredList (final (runCurator s)) in
    newCensoredList (final (prepare s)) = []
    /\ (forall k, In k (Object_keys built)
                  <-> exists item s' newHash name reference,
                        turn items (final (prepare s)) item s'
                        /\ tokenId item = k
                        /\ resolved_signature item (world s') = Some newHash
                        /\ In (name, reference) (own_entries masterHashes)
                        /\ calculateHammingDistance newHash reference
                           <= SIMILARITY_THRESHOLD)
    /\ (forall item s',
          announces_match (emitted (process_item item s'))
          = matches_a_reference item (world s'))
    /\ (forall item s' e,
          outcome (evaluate item s') = Throw e ->
          resolved_signature item (world s') = None)
    /\ (forall k,
          In k (Object_keys previous) ->
          (forall item s',
              turn items (final (prepare s)) item s' ->
              tokenId item = k ->
              resolved_signature item (world s') = None) ->
          ~ In k (Object_keys built)
          /\ list_changed previous built = true
          /\ In (GistPatch (JSON_stringify_object show_bool built))
                (emitted (runCurator s))).
Proof.
  intros s previous items P built.
  pose proof (prepare_starts_empty s _ P) as Empty.
  destruct (runCurator_prepared s previous items P) as (Ev & Fin & _).
  assert (Built : built
                  = newCensoredList
                      (final (for_of items process_item (final (prepare s))))).
  { subst built. now rewrite Fin, publish_if_changed_list. }
  assert (Keys : forall k,
             In k (Object_keys built)
             <-> exists item s' newHash name reference,
                   turn items (final (prepare s)) item s'
                   /\ tokenId item = k
                   /\ resolved_signature item (world s') = Some newHash
                   /\ In (name, reference) (own_entries masterHashes)
                   /\ calculateHammingDistance newHash reference
                      <= SIMILARITY_THRESHOLD).
  { intros k. rewrite Built, Object_keys_in, for_of_process_list.
    rewrite fold_obj_set_keys, Empty, matched_ids_turn. split.
    - intros [(item & s' & T & E & A)|[]].
      rewrite process_item_announces in A.
      apply matches_a_reference_iff in A.
      destruct A as (newHash & name & reference & A).
      now exists item, s', newHash, name, reference.
    - intros (item & s' & newHash & name & reference & T & E & A).
      left. exists item, s'. split; [exact T|]. split; [exact E|].
      rewrite process_item_announces. apply matches_a_reference_iff.
      now exists newHash, name, reference. }
  split; [exact Empty|]. split; [exact Keys|].
  split; [exact process_item_announces|]. split.
  - intros item s' e Thrown.
    destruct (resolved_signature item (world s')) as [newHash|] eqn:Sig;
      [|reflexivity].
    rewrite (proj2 (evaluate_announces item s') newHash Sig) in Thrown.
    discriminate.
  - intros k Hp Unresolved.
    assert (Absent : ~ In k (Object_keys built)).
    { rewrite Keys. intros (item & s' & newHash & _ & _ & T & E & Sig & _).
      rewrite (Unresolved item s' T E) in Sig. discriminate. }
    pose proof (list_changed_key_removed previous built k Hp Absent) as Ch.
    split; [exact Absent|]. split; [exact Ch|].
    rewrite Ev. apply in_or_app. right. apply in_or_app. right.
    rewrite Built in Ch |- *.
    now apply publish_if_changed_changed.
Qed.

End Rebuilding.

Module RebuildFacts.
Import Scenario.

Lemma list_is_rebuilt_from_the_matches_of_this_run_witness :
  calculateHammingDistance poseB poseA = 3
  /\ In "5" (Object_keys
               (newCensoredList (final (runCurator (start worldA)))))
  /\ ~ In "7" (Object_keys
                 (newCensoredList (final (runCurator (start worldA)))))
  /\ ~ In "9" (Object_keys
                 (newCensoredList (final (runCurator (start worldC)))))
  /\ In (GistPatch (document [])) (emitted (runCurator (start worldC))).
Proof.
  destruct (list_is_rebuilt_from_the_matches_of_this_run
              (start worldA) [("5", true)] [item "5"; item "7"])
    as (_ & KeysA & _); [reflexivity|].
  destruct (list_is_rebuilt_from_the_matches_of_this_run
              (start worldC) [("9", true)] [item "9"])
    as (_ & _ & _ & _ & Dropped); [reflexivity|].
  split; [reflexivity|]. split; [|split].
  - apply KeysA.
    exists (item "5"), (final (prepare (start worldA))),
      poseB, "poseA.jpg", poseA.
    split; [constructor|]. split; [reflexivity|]. split; [reflexivity|].
    split; [simpl; auto | vm_compute; lia].
  - intros H. apply KeysA in H.
    destruct H as (it & s' & newHash & name & reference
                   & T & E & Sig & I & Near).
    inversion T as [? ? ? | ? ? ? ? ? T']; subst; [discriminate|].
    inversion T' as [? ? ? | ? ? ? ? ? T'']; subst; [|inversion T''].
    vm_compute in Sig. injection Sig as <-.
    simpl in I. destruct I as [I|[I|[]]]; injection I as <- <-;
      vm_compute in Near; lia.
  - destruct (Dropped "9") as (Absent & _ & Patched).
    + simpl. auto.
    + intros it s' T E. inversion T as [? ? ? | ? ? ? ? ? T']; subst.
      * reflexivity.
      * inversion T'.
    + split; [exact Absent | exact Patched].
Defined.

End RebuildFacts.

(** ** The further properties in the concrete worlds *)

Module FaultFacts.
Import Scenario Faults.

Lemma built_list_is_a_set_of_true_flags_witness :
  NoDup (Object_keys (newCensoredList (final (runCurator (start worldA)))))
  /\ List.length
       (Object_keys (newCensoredList (final (runCurator (start worldA)))))
     <= 2.
Proof.
  destruct (built_list_is_a_set_of_true_flags
              (start worldA) [("5", true)] [item "5"; item "7"])
    as (N & _ & L).
  - reflexivity.
  - split; [exact N | exact L].
Defined.


Lemma resolved_item_is_recorded_iff_a_reference_is_near_witness :
  newCensoredList (final (process_item (item "5") (start worldA)))
  = [("5", true)]
  /\ newCensoredList (final (process_item (item "7") (start worldA))) = [].
Proof.
  split.
  - edestruct (resolved_item_is_recorded_iff_a_reference_is_near
                 (item "5") (start worldA)) as (_ & _ & L);
      [reflexivity | reflexivity | reflexivity | reflexivity | reflexivity
      | reflexivity | reflexivity | reflexivity |].
    rewrite L. reflexivity.
  - edestruct (resolved_item_is_recorded_iff_a_reference_is_near
                 (item "7") (start worldA)) as (_ & _ & L);
      [reflexivity | reflexivity | reflexivity | reflexivity | reflexivity
      | reflexivity | reflexivity | reflexivity |].
    rewrite L. reflexivity.
Defined.

Lemma failed_save_drops_the_item_witness :
  some_reference_near "0000000000000000" (own_entries masterHashes) = true
  /\ newCensoredList
       (final (process_item (item "12") (faulty_start world_disk_full)))
     = [].
Proof.
  split; [reflexivity|].
  edestruct (failed_save_drops_the_item
               (item "12") (faulty_start world_disk_full)) as (_ & L & _);
    [reflexivity | reflexivity | reflexivity | reflexivity | reflexivity
    | reflexivity | reflexivity | reflexivity |].
  rewrite L. reflexivity.
Defined.

End FaultFacts.

(** ** Generating the reference signatures *)

Lemma obj_get_obj_set {V} (o : jsobject V) k v k' :
  obj_get (obj_set o k v) k'
  = if String.eqb k' k then Some v else obj_get o k'.
Proof.
  unfold obj_get. induction o as [|[k0 v0] o IH]; simpl.
  - rewrite (String.eqb_sym k k'). now destruct (String.eqb k' k).
  - destruct (String.eqb_spec k0 k) as [E1|N1]; simpl;
      destruct (String.eqb_spec k0 k') as [E2|N2];
      destruct (String.eqb_spec k' k) as [E3|N3];
      subst; try reflexivity; try contradiction; exact IH.
Qed.

Lemma obj_get_in {V} (o : jsobject V) k v :
  obj_get o k = Some v -> In (k, v) o.
Proof.
  unfold obj_get.
  destruct (find (fun p => String.eqb (fst p) k) o) as [[k' v']|] eqn:F;
    [|discriminate].
  intros H. injection H as <-. apply find_some in F. destruct F as [I E].
  apply String.eqb_eq in E. simpl in E. now subst k'.
Qed.

Lemma obj_get_some_iff_key {V} (o : jsobject V) k :
  (exists v, obj_get o k = Some v) <-> In k (map fst o).
Proof.
  split.
  - intros [v H]. apply obj_get_in in H.
    apply in_map_iff. now exists (k, v).
  - intros H. unfold obj_get. induction o as [|[k0 v0] o IH]; simpl in *.
    + contradiction.
    + destruct (String.eqb_spec k0 k) as [->|N].
      * now exists v0.
      * destruct H as [H|H]; [contradiction | now apply IH].
Qed.

Module GenerateFacts.
Import GenerateHashes.

Section Facts.
Context {World : Type} {hw : HashWorld World}.

(** What one turn of the loop does to the state. *)
Lemma hash_file_cases file (st : gen_state World) :
  let filePath := join imageDir file in
  (exists message,
      hashes (hash_file file st) = hashes st
      /\ gen_log (hash_file file st)
         = (gen_log st ++ [GenRead filePath; GenLogError file message])%list)
  \/ (exists hash,
         hashes (hash_file file st) = js_assign (hashes st) file hash
         /\ gen_log (hash_file file st)
            = (gen_log st ++ [GenRead filePath; GenLogHash file hash])%list).
Proof.
  intros filePath. subst filePath. unfold hash_file.
  destruct (read_image (join imageDir file) (gen_world st)) as [[image|e] w].
  - destruct (pHash image) as [hash|e].
    + right. exists hash. now split.
    + left. exists (error_message e). now split.
  - left. exists (error_message e). now split.
Qed.

(** The object and the log agree on what was hashed. *)
Definition agrees (st : gen_state World) : Prop :=
  (forall f h, obj_get (hashes st) f = Some h ->
               In (GenLogHash f h) (gen_log st))
  /\ (forall f h, In (GenLogHash f h) (gen_log st) ->
                  f <> "__proto__" -> In f (map fst (hashes st)))
  /\ (forall e, In e (gen_log st) -> is_write e = false).

Lemma hash_file_agrees file (st : gen_state World) :
  agrees st -> agrees (hash_file file st).
Proof.
  intros (A1 & A2 & A3). unfold agrees.
  destruct (hash_file_cases file st)
    as [(m & -> & ->)|(hash & -> & ->)]; repeat split.
  - intros f h H. apply in_or_app. left. now apply A1.
  - intros f h H N. apply in_app_or in H.
    destruct H as [H|[H|[H|[]]]]; try discriminate. now apply (A2 f h).
  - intros e H. apply in_app_or in H.
    destruct H as [H|[<-|[<-|[]]]]; [now apply A3 | reflexivity..].
  - intros f h H. unfold js_assign in H. apply in_or_app.
    destruct (String.eqb file "__proto__"); [left; now apply A1|].
    rewrite obj_get_obj_set in H.
    destruct (String.eqb_spec f file) as [->|N].
    + injection H as ->. right. simpl. auto.
    + left. now apply A1.
  - intros f h H N. apply in_app_or in H. unfold js_assign.
    destruct H as [H|[H|[H|[]]]]; try discriminate.
    + destruct (String.eqb file "__proto__"); [now apply (A2 f h)|].
      apply obj_set_keys_in. right. now apply (A2 f h).
    + injection H as -> ->.
      destruct (String.eqb_spec f "__proto__") as [E|_]; [contradiction|].
      apply obj_set_keys_in. now left.
  - intros e H. apply in_app_or in H.
    destruct H as [H|[<-|[<-|[]]]]; [now apply A3 | reflexivity..].
Qed.

Lemma hash_files_agrees files :
  forall st : gen_state World, agrees st -> agrees (hash_files files st).
Proof.
  unfold hash_files.
  induction files as [|file files IH]; intros st A; cbn [fold_left].
  - exact A.
  - apply IH, hash_file_agrees, A.
Qed.

Lemma reads_app l1 l2 : reads (l1 ++ l2) = (reads l1 ++ reads l2)%list.
Proof. apply flat_map_app. Qed.

Lemma hash_files_reads files :
  forall st : gen_state World,
    reads (gen_log (hash_files files st))
    = (reads (gen_log st) ++ map (join imageDir) files)%list.
Proof.
  unfold hash_files.
  induction files as [|file files IH]; intros st; cbn [fold_left map].
  - now rewrite app_nil_r.
  - rewrite IH.
    destruct (hash_file_cases file st) as [(m & _ & ->)|(hash & _ & ->)];
      rewrite reads_app, <- app_assoc; reflexivity.
Qed.

(** The state after the loop, when the directory could be listed. *)
Definition after_loop (files : list string) (w : World) : gen_state World :=
  hash_files files
    {| gen_world := w; hashes := [];
       gen_log := [GenReadDir imageDir; GenLogFound (List.length files)] |}.

Lemma after_loop_agrees files w : agrees (after_loop files w).
Proof.
  apply hash_files_agrees. repeat split.
  - intros f h H. discriminate.
  - intros f h [H|[H|[]]]; discriminate.
  - intros e [<-|[<-|[]]]; reflexivity.
Qed.

(** The four ways [generate] can end. *)
Lemma generate_cases (w : World) :
  (exists e w1,
      readdir imageDir w = (Throw e, w1)
      /\ generate w
         = (Throw e, {| gen_world := w1; hashes := [];
                        gen_log := [GenReadDir imageDir] |}))
  \/ (exists files w1,
         readdir imageDir w = (Normal files, w1)
         /\ let st := after_loop files w1 in
            let text := JSON_stringify_object QuoteJSONString (hashes st) in
            (hashes st = []
             /\ generate w
                = (Normal tt,
                   {| gen_world := gen_world st; hashes := hashes st;
                      gen_log := gen_log st ++ [GenLogNothing] |}))
            \/ (hashes st <> []
                /\ exists w2,
                    generate w
                    = (Normal tt,
                       {| gen_world := w2; hashes := hashes st;
                          gen_log :=
                            gen_log st
                            ++ [GenWriteFile "master-hashes.json" text;
                                GenLogCreated] |}))
            \/ (hashes st <> []
                /\ exists e w2,
                    generate w
                    = (Throw e,
                       {| gen_world := w2; hashes := hashes st;
                          gen_log :=
                            gen_log st
                            ++ [GenWriteFile "master-hashes.json" text] |}))).
Proof.
  unfold generate.
  destruct (readdir imageDir w) as [[files|e] w1].
  - right. exists files, w1. split; [reflexivity|].
    fold (after_loop files w1). cbv zeta.
    set (st := after_loop files w1).
    rewrite (Permutation_length (Object_keys_perm (hashes st))), length_map.
    destruct (hashes st) as [|p o] eqn:H.
    + left. now split.
    + cbn [List.length Nat.ltb Nat.leb]. right.
      destruct (writeFile _ _ (gen_world st)) as [[[]|e] w2].
      * left. split; [discriminate|]. now exists w2.
      * right. split; [discriminate|]. now exists e, w2.
  - left. now exists e, w1.
Qed.

(** X13: when the directory can be listed, every listed file is read
    exactly once, in the order of the listing, whether or not earlier
    files could be read; a run only fails when listing the directory or
    writing the result fails, never because of a file. *)
Theorem every_master_file_is_read_once_and_no_file_stops_the_run :
  forall w : World,
    (forall files w1,
        readdir imageDir w = (Normal files, w1) ->
        reads (gen_log (snd (generate w))) = map (join imageDir) files)
    /\ (forall e,
          fst (generate w) = Throw e ->
          fst (readdir imageDir w) = Throw e
          \/ exists before text,
               gen_log (snd (generate w))
               = (before ++ [GenWriteFile "master-hashes.json" text])%list).
Proof.
  intros w. split.
  - intros files w1 R.
    assert (L : reads (gen_log (after_loop files w1))
                = map (join imageDir) files).
    { unfold after_loop. now rewrite hash_files_reads. }
    destruct (generate_cases w)
      as [(e & w1' & R' & _)|(files' & w1' & R' & C)]; [congruence|].
    rewrite R in R'. injection R' as <- <-.
    destruct C as [(_ & ->)|[(_ & w2 & ->)|(_ & e & w2 & ->)]];
      cbn [snd gen_log]; rewrite reads_app, L; cbn; now rewrite app_nil_r.
  - intros e H.
    destruct (generate_cases w)
      as [(e' & w1 & R & G)|(files & w1 & R & C)].
    + left. rewrite G in H. rewrite R. simpl in *. now injection H as ->.
    + destruct C as [(_ & G)|[(_ & w2 & G)|(_ & e' & w2 & G)]];
        rewrite G in H; try discriminate.
      right. rewrite G. cbn [snd gen_log]. eauto.
Qed.

Lemma agrees_with_tail (st : gen_state World) tail text :
  agrees st ->
  (forall e, In e tail ->
             (forall f h, e <> GenLogHash f h)
             /\ (is_write e = true ->
                 e = GenWriteFile "master-hashes.json" text)) ->
  (forall f h, obj_get (hashes st) f = Some h ->
               In (GenLogHash f h) (gen_log st ++ tail))
  /\ (forall f h, In (GenLogHash f h) (gen_log st ++ tail) ->
                  f <> "__proto__" ->
                  exists h', obj_get (hashes st) f = Some h')
  /\ (forall path t,
        In (GenWriteFile path t) (gen_log st ++ tail) ->
        path = "master-hashes.json" /\ t = text).
Proof.
  intros (A1 & A2 & A3) T. split; [|split].
  - intros f h H. apply in_or_app. left. now apply A1.
  - intros f h H N. apply obj_get_some_iff_key, (A2 f h); [|exact N].
    apply in_app_or in H. destruct H as [H|H]; [exact H|].
    destruct (T _ H) as [NoHash _]. now destruct (NoHash f h).
  - intros path t H. apply in_app_or in H. destruct H as [H|H].
    + apply A3 in H. discriminate.
    + destruct (T _ H) as [_ W]. specialize (W eq_refl).
      now injection W as -> ->.
Qed.

(** X14: the object that is built and serialised holds only what was
    hashed: every entry was logged as generated with that hash, every
    file logged as generated is a key unless it is named [__proto__], and
    what is written to [master-hashes.json] is the serialisation of that
    object. *)
Theorem written_hashes_are_the_generated_ones :
  forall w : World,
    let st := snd (generate w) in
    (forall f h, obj_get (hashes st) f = Some h ->
                 In (GenLogHash f h) (gen_log st))
    /\ (forall f h, In (GenLogHash f h) (gen_log st) ->
                    f <> "__proto__" ->
                    exists h', obj_get (hashes st) f = Some h')
    /\ (forall path text,
          In (GenWriteFile path text) (gen_log st) ->
          path = "master-hashes.json"
          /\ text = JSON_stringify_object QuoteJSONString (hashes st)).
Proof.
  intros w st. subst st.
  destruct (generate_cases w)
    as [(e & w1 & _ & ->)|(files & w1 & _ & C)].
  - cbn [snd hashes gen_log]. repeat split.
    + discriminate.
    + intros f h [H|[]]. discriminate.
    + destruct H as [H|[]]; discriminate.
    + destruct H as [H|[]]; discriminate.
  - pose proof (after_loop_agrees files w1) as A.
    destruct C as [(_ & ->)|[(_ & w2 & ->)|(_ & e & w2 & ->)]];
      cbn [snd hashes gen_log];
      apply (agrees_with_tail (after_loop files w1) _ _ A);
      intros e' He; simpl in He;
      repeat (destruct He as [<-|He];
              [split; [discriminate | intros W; try reflexivity;
                                      discriminate]|]);
      contradiction.
Qed.

(** X15: [master-hashes.json] is written at most once, and exactly when
    at least one file gave a hash that was kept; when none did (an empty
    directory, or only unreadable files) the run completes normally,
    writes nothing and says so, leaving an earlier file as it is. *)
Theorem hashes_file_is_written_only_when_something_was_hashed :
  forall w : World,
    let st := snd (generate w) in
    List.length (filter is_write (gen_log st)) <= 1
    /\ (existsb is_write (gen_log st) = true -> hashes st <> [])
    /\ (forall files w1,
          readdir imageDir w = (Normal files, w1) ->
          (existsb is_write (gen_log st) = true <-> hashes st <> [])
          /\ (hashes st = [] ->
              fst (generate w) = Normal tt
              /\ gen_world st = gen_world (after_loop files w1)
              /\ In GenLogNothing (gen_log st))).
Proof.
  intros w st. subst st.
  assert (F : forall files w1,
             filter is_write (gen_log (after_loop files w1)) = []
             /\ existsb is_write (gen_log (after_loop files w1)) = false).
  { intros files w1. destruct (after_loop_agrees files w1) as (_ & _ & A3).
    induction (gen_log (after_loop files w1)) as [|x l IH]; [now split|].
    simpl. rewrite (A3 x) by now left.
    apply IH. intros e He. apply A3. now right. }
  destruct (generate_cases w)
    as [(e & w1 & R & ->)|(files & w1 & R & C)].
  - cbn [snd hashes gen_log]. split; [simpl; lia|].
    split; [discriminate|]. intros files w1' R'. congruence.
  - destruct (F files w1) as [F1 F2].
    destruct C as [(E & ->)|[(N & w2 & ->)|(N & e & w2 & ->)]];
      cbn [fst snd hashes gen_log gen_world];
      rewrite filter_app, length_app, existsb_app, F1, F2; cbn.
    + split; [lia|]. split; [discriminate|].
      intros files' w1' R'. rewrite R in R'. injection R' as <- <-.
      split; [split; [discriminate | intros H; contradiction]|].
      intros _. repeat split. apply in_or_app. right. now left.
    + split; [lia|]. split; [now intros _|].
      intros files' w1' R'. split; [now split|]. intros H. contradiction.
    + split; [lia|]. split; [now intros _|].
      intros files' w1' R'. split; [now split|]. intros H. contradiction.
Qed.

End Facts.

End GenerateFacts.

(** ** Downloading the images *)

Module DownloadFacts.
Import DownloadImages.

Lemma strip_prefix_app p : forall s, strip_prefix p (p ++ s) = Some s.
Proof.
  induction p as [|c p IH]; intros s; simpl.
  - reflexivity.
  - now rewrite Ascii.eqb_refl.
Qed.

Lemma strip_prefix_some p : forall s r, strip_prefix p s = Some r -> s = p ++ r.
Proof.
  induction p as [|c p IH]; intros s r; simpl.
  - now intros [= ->].
  - destruct s as [|d s]; [discriminate|].
    destruct (Ascii.eqb_spec c d) as [->|_]; [|discriminate].
    intros H. now rewrite (IH _ _ H).
Qed.

Lemma take_digits_some s :
  forall digits rest,
    take_digits s = (digits, rest) ->
    s = digits ++ rest /\ all_digits digits = true.
Proof.
  induction s as [|c s IH]; intros digits rest; simpl.
  - intros [= <- <-]. now split.
  - destruct (is_digit c) eqn:D.
    + destruct (take_digits s) as [d r]. intros [= <- <-].
      destruct (IH d r eq_refl) as [-> A]. simpl. now rewrite D, A.
    + intros [= <- <-]. now split.
Qed.

Lemma take_digits_app id :
  forall rest,
    all_digits id = true ->
    fst (take_digits rest) = EmptyString ->
    take_digits (id ++ rest) = (id, snd (take_digits rest)).
Proof.
  induction id as [|c id IH]; intros rest A R; simpl in *.
  - destruct (take_digits rest) as [d r]. simpl in *. now subst d.
  - apply andb_true_iff in A. destruct A as [D A]. rewrite D.
    now rewrite (IH rest A R).
Qed.

Lemma match_at_not_t c s : c <> "t"%char -> match_at (String c s) = None.
Proof.
  intros N. unfold match_at. cbn [strip_prefix].
  destruct (Ascii.eqb_spec "t"%char c) as [E|_]; [now subst c|].
  reflexivity.
Qed.

Lemma digit_not_t c : is_digit c = true -> c <> "t"%char.
Proof. intros D ->. discriminate. Qed.

Lemma match_at_saved_name id suffix :
  id <> EmptyString ->
  all_digits id = true ->
  match_at ("token-" ++ id ++ ".jpg" ++ suffix) = Some id.
Proof.
  intros N A. unfold match_at. rewrite strip_prefix_app.
  rewrite (take_digits_app id (".jpg" ++ suffix) A eq_refl).
  cbn [snd take_digits is_digit]. simpl.
  destruct (String.eqb_spec id EmptyString) as [E|_]; [contradiction|].
  reflexivity.
Qed.

Lemma match_token_at_start file id :
  match_at file = Some id -> match_token file = Some id.
Proof.
  intros M. destruct file as [|c file]; cbn [match_token]; now rewrite M.
Qed.

(** X16: the name under which the downloader saves an image is read back
    as the id of its item: a file name that starts with [token-], the id
    in decimal digits and [.jpg] yields that id, whatever follows, so
    also a name such as [token-7.jpg.tmp]. *)
Theorem saved_name_is_read_back_as_the_id :
  forall id suffix : string,
    id <> EmptyString ->
    all_digits id = true ->
    match_token ("token-" ++ id ++ ".jpg" ++ suffix) = Some id.
Proof.
  intros id suffix N A.
  apply match_token_at_start, match_at_saved_name; assumption.
Qed.

Lemma saved_name_is_read_back_as_the_id_witness :
  match_token "token-29.jpg" = Some "29"
  /\ match_token "token-7.jpg.tmp" = Some "7".
Proof.
  split.
  - apply (saved_name_is_read_back_as_the_id "29" EmptyString);
      [discriminate | reflexivity].
  - apply (saved_name_is_read_back_as_the_id "7" ".tmp");
      [discriminate | reflexivity].
Defined.

(** X17: an id is only ever read from a file name that contains
    [token-], that id and [.jpg] in a row, and the id is a non-empty run
    of decimal digits. *)
Theorem read_id_occurs_in_the_file_name :
  forall file id : string,
    match_token file = Some id ->
    id <> EmptyString
    /\ all_digits id = true
    /\ exists before after,
         file = before ++ "token-" ++ id ++ ".jpg" ++ after.
Proof.
  induction file as [|c file IH]; intros id.
  - simpl. discriminate.
  - cbn [match_token].
    destruct (match_at (String c file)) as [found|] eqn:M.
    + intros [= ->]. unfold match_at in M.
      destruct (strip_prefix "token-" (String c file)) as [rest|] eqn:P;
        [|discriminate].
      destruct (take_digits rest) as [digits after] eqn:T.
      destruct (String.eqb_spec digits EmptyString) as [_|N];
        [discriminate|].
      destruct (strip_prefix ".jpg" after) as [tail|] eqn:J; [|discriminate].
      injection M as ->.
      apply strip_prefix_some in P, J.
      apply take_digits_some in T. destruct T as [-> A].
      split; [exact N|]. split; [exact A|].
      exists EmptyString, tail. rewrite P, J. reflexivity.
    + intros H. destruct (IH id H) as (N & A & before & after & ->).
      split; [exact N|]. split; [exact A|].
      now exists (String c before), after.
Qed.

Lemma read_id_occurs_in_the_file_name_witness :
  all_digits "12" = true
  /\ exists before after,
       "old-token-12.jpg" = before ++ "token-" ++ "12" ++ ".jpg" ++ after.
Proof.
  destruct (read_id_occurs_in_the_file_name "old-token-12.jpg" "12")
    as (_ & A & E).
  - reflexivity.
  - split; [exact A | exact E].
Defined.

Lemma match_token_digits_then id :
  forall rest,
    all_digits id = true ->
    match_token (id ++ rest) = match_token rest.
Proof.
  induction id as [|c id IH]; intros rest A; simpl in A.
  - reflexivity.
  - apply andb_true_iff in A. destruct A as [D A].
    change (String c id ++ rest) with (String c (id ++ rest)).
    cbn [match_token].
    rewrite (match_at_not_t c _ (digit_not_t c D)). now apply IH.
Qed.

(** X18: the file names under which [curator.js] keeps the images, the id
    in decimal digits followed by [.jpg], are not read as ids by the
    downloader: for it those images are not there. *)
Theorem images_kept_by_the_curator_are_not_recognised :
  forall id : string,
    all_digits id = true ->
    match_token (id ++ ".jpg") = None
    /\ existingTokenIds [id ++ ".jpg"] = [].
Proof.
  intros id A.
  assert (M : match_token (id ++ ".jpg") = None).
  { rewrite (match_token_digits_then id ".jpg" A). reflexivity. }
  split; [exact M|].
  unfold existingTokenIds. cbn [flat_map]. now rewrite M.
Qed.

Lemma images_kept_by_the_curator_are_not_recognised_witness :
  match_token "17.jpg" = None.
Proof.
  apply (images_kept_by_the_curator_are_not_recognised "17"). reflexivity.
Defined.

Section Facts.
Context {World : Type} {dw : DownloadWorld World}.

Lemma has_existingTokenIds files id :
  has (existingTokenIds files) id = true
  <-> exists file, In file files /\ match_token file = Some id.
Proof.
  unfold has, existingTokenIds. rewrite existsb_exists. split.
  - intros (x & I & E). apply String.eqb_eq in E. subst x.
    apply nodup_In, in_flat_map in I. destruct I as (file & F & I).
    exists file. split; [exact F|].
    destruct (match_token file) as [found|]; [|contradiction].
    destruct I as [->|[]]. reflexivity.
  - intros (file & F & M). exists id. split; [|apply String.eqb_refl].
    apply nodup_In, in_flat_map. exists file. split; [exact F|].
    rewrite M. now left.
Qed.

(** X19: an image saved by an earlier run is not downloaded again: when
    the directory lists the file [token-<id>.jpg] for the id of an item,
    in decimal digits, the body of the loop leaves the state as it is for
    that item: no line, no request, no write. *)
Theorem downloaded_item_is_skipped :
  forall (files : list string) (item : nft) (st : dl_state World),
    tokenId item <> EmptyString ->
    all_digits (tokenId item) = true ->
    In ("token-" ++ tokenId item ++ ".jpg") files ->
    has (existingTokenIds files) (tokenId item) = true
    /\ download_item (existingTokenIds files) item st = st.
Proof.
  intros files item st N A I.
  assert (H : has (existingTokenIds files) (tokenId item) = true).
  { apply has_existingTokenIds.
    exists ("token-" ++ tokenId item ++ ".jpg"). split; [exact I|].
    apply match_token_at_start.
    exact (match_at_saved_name (tokenId item) EmptyString N A). }
  split; [exact H|]. unfold download_item. now rewrite H.
Qed.

End Facts.

End DownloadFacts.

(** ** From the generated store to the classification *)

Section StoreToCurator.
Context {HashedWorld : Type} {hw : GenerateHashes.HashWorld HashedWorld}.
Context {World : Type} {io : Collaborators World}.

Lemma some_reference_near_in newHash entries name hash :
  In (name, hash) entries ->
  calculateHammingDistance newHash hash <= SIMILARITY_THRESHOLD ->
  some_reference_near newHash entries = true.
Proof.
  intros I H. apply existsb_exists. exists (name, hash).
  split; [exact I|]. now apply Nat.leb_le.
Qed.

Lemma match_loop_announces id newHash entries (s : state World) :
  some_reference_near newHash entries = true ->
  announces_match (emitted (match_loop id newHash entries s)) = true.
Proof.
  intros H.
  destruct (announces_match (emitted (match_loop id newHash entries s)))
    eqn:A; [reflexivity|].
  apply match_loop_silent_iff in A.
  apply existsb_exists in H. destruct H as (entry & I & Near).
  apply Nat.leb_le in Near. rewrite Forall_forall in A.
  specialize (A entry I). unfold exceeds_threshold in A. lia.
Qed.

(** X20: the store written by [generate-hashes.js] recognises its own
    images: with that object as [masterHashes], an item whose signature
    equals the hash kept for some master file is announced as a match
    and recorded. *)
Theorem generated_store_matches_its_own_images :
  forall (w : HashedWorld) (file hash id : string) (s : state World),
    masterHashes = GenerateHashes.hashes (snd (GenerateHashes.generate w)) ->
    obj_get (GenerateHashes.hashes (snd (GenerateHashes.generate w))) file
    = Some hash ->
    announces_match
      (emitted (match_loop id hash (own_entries masterHashes) s)) = true
    /\ newCensoredList
         (final (match_loop id hash (own_entries masterHashes) s))
       = obj_set (newCensoredList s) id true.
Proof.
  intros w file hash id s Store Kept.
  assert (Near : some_reference_near hash (own_entries masterHashes) = true).
  { apply some_reference_near_in with (name := file) (hash := hash).
    - rewrite Store.
      eapply Permutation_in;
        [apply Permutation_sym, own_entries_perm | now apply obj_get_in].
    - rewrite calculateHammingDistance_count_diff, count_diff_refl.
      unfold SIMILARITY_THRESHOLD. lia. }
  split; [now apply match_loop_announces|].
  destruct (match_loop_result id hash (own_entries masterHashes) s)
    as (_ & _ & ->).
  now rewrite Near.
Qed.

End StoreToCurator.

(** ** Counting the downloads *)

Module DownloadCount.
Import DownloadImages.

Section Count.
Context {World : Type} {dw : DownloadWorld World}.

(** The counter agrees with the "saved" lines. *)
Definition counted (st : dl_state World) : Prop :=
  newImagesDownloaded st = List.length (saved_paths (dl_trace st)).

Lemma saved_paths_app l1 l2 :
  saved_paths (l1 ++ l2) = (saved_paths l1 ++ saved_paths l2)%list.
Proof. apply flat_map_app. Qed.

Lemma advance_counted (st : dl_state World) w events :
  saved_paths events = [] -> counted st -> counted (advance st w events).
Proof.
  unfold counted, advance. cbn [newImagesDownloaded dl_trace].
  intros E C. now rewrite saved_paths_app, E, app_nil_r.
Qed.

Lemma download_item_counted existing item (st : dl_state World) :
  counted st -> counted (download_item existing item st).
Proof.
  intros C. unfold download_item.
  destruct (has existing (tokenId item)); [exact C|].
  destruct (truthy (tokenUri item)) as [uri|];
    [|now apply advance_counted].
  destruct (dl_axios_get uri (dl_world st)) as [[response|e] w1];
    [|now apply advance_counted].
  destruct (metadata_data response) as [response_data|];
    [|now apply advance_counted].
  destruct (truthy (image response_data)) as [imageUrl|];
    [|now apply advance_counted].
  destruct (dl_read imageUrl w1) as [[picture|e] w2];
    [|now apply advance_counted].
  destruct (dl_write picture (save_path item) w2) as [[[]|e] w3];
    [|now apply advance_counted].
  unfold counted in *. cbn [newImagesDownloaded dl_trace].
  rewrite saved_paths_app, length_app, <- C. cbn. lia.
Qed.

Lemma download_loop_counted fuel existing :
  forall (st : dl_state World) r st',
    counted st ->
    download_loop fuel existing st = Some (r, st') ->
    counted st'.
Proof.
  induction fuel as [|fuel IH]; intros st r st' C; cbn [download_loop].
  - discriminate.
  - destruct (dl_next (dl_world st)) as [[[item|]|e] w].
    + apply IH, download_item_counted. now apply advance_counted.
    + intros [= <- <-]. now apply advance_counted.
    + intros [= <- <-]. now apply advance_counted.
Qed.

Lemma download_loop_more_fuel fuel existing :
  forall (st : dl_state World) x fuel',
    download_loop fuel existing st = Some x ->
    fuel <= fuel' ->
    download_loop fuel' existing st = Some x.
Proof.
  induction fuel as [|fuel IH]; intros st x fuel'; cbn [download_loop].
  - discriminate.
  - intros H L. destruct fuel' as [|fuel']; [lia|]. cbn [download_loop].
    destruct (dl_next (dl_world st)) as [[[item|]|e] w]; try exact H.
    apply IH; [exact H | lia].
Qed.

(** X21: in a run of the downloader that ends, the number of downloads it
    reports is the number of images it logged as saved: each item adds at
    most one, and only when its image was written; the run ends the same
    way under any larger bound on the enumeration, and a run that
    completes ends with the summary for that number. *)
Theorem reported_downloads_are_the_saved_images :
  forall (fuel : nat) (w : World) r (st : dl_state World),
    downloadNewImages fuel w = Some (r, st) ->
    newImagesDownloaded st = List.length (saved_paths (dl_trace st))
    /\ (forall fuel', fuel <= fuel' ->
                      downloadNewImages fuel' w = Some (r, st))
    /\ (r = Normal tt ->
        exists before,
          dl_trace st
          = (before
             ++ [DlLog DlComplete;
                 DlLog (if (0 <? newImagesDownloaded st)%nat
                        then DlSummary (newImagesDownloaded st)
                        else DlUpToDate)])%list).
Proof.
  intros fuel w r st. unfold downloadNewImages.
  destruct (dl_mkdir OUTPUT_DIR w) as [[[]|e] w1].
  2:{ intros [= <- <-]. split; [reflexivity|].
      split; [reflexivity | discriminate]. }
  destruct (dl_readdir OUTPUT_DIR w1) as [[existingFiles|e] w2].
  2:{ intros [= <- <-]. split; [reflexivity|].
      split; [reflexivity | discriminate]. }
  match goal with
  | |- context [download_loop fuel ?ex ?s1] =>
      set (st1 := s1); set (existing := ex) in *;
      assert (C1 : counted st1) by reflexivity
  end.
  destruct (download_loop fuel existing st1) as [[[[]|e] st2]|] eqn:L;
    [| |intros H; discriminate H].
  - intros [= <- <-].
    pose proof (download_loop_counted _ _ _ _ _ C1 L) as C2.
    split; [|split].
    + unfold counted in C2. cbn [advance newImagesDownloaded dl_trace].
      rewrite saved_paths_app, C2.
      destruct (0 <? List.length (saved_paths (dl_trace st2)))%nat;
        cbn; now rewrite app_nil_r.
    + intros fuel' F.
      now rewrite (download_loop_more_fuel _ _ _ _ _ L F).
    + intros _. exists (dl_trace st2). reflexivity.
  - intros [= <- <-].
    pose proof (download_loop_counted _ _ _ _ _ C1 L) as C2.
    split; [exact C2|]. split; [|discriminate].
    intros fuel' F. now rewrite (download_loop_more_fuel _ _ _ _ _ L F).
Qed.

End Count.

End DownloadCount.

(** ** Comparing the keys through their JSON text *)

(** X22: comparing two arrays of keys through [JSON.stringify] is
    comparing the arrays: two arrays have the same text exactly when they
    are equal, whatever the keys contain (quotes, backslashes, commas,
    brackets, control characters). *)
Theorem key_arrays_with_equal_json_are_equal :
  forall a b : list string,
    JSON_stringify_array a = JSON_stringify_array b <-> a = b.
Proof.
  intros a b. split.
  - apply JSON_stringify_array_inj.
  - now intros ->.
Qed.

(** ** The further properties on the concrete directories and worlds *)

Module ScriptFacts.
Import Scenario Faults GenerateHashes DownloadImages.

Lemma update_is_sent_at_most_once_and_reported_when_accepted_witness :
  existsb is_updated_line (emitted (runCurator (start worldB))) = true
  /\ outcome (runCurator (faulty_start world_read_only))
     = Throw (Error "Request failed with status code 401").
Proof.
  split; [|reflexivity].
  apply (proj2 (update_is_sent_at_most_once_and_reported_when_accepted
                  (start worldB))).
  split; reflexivity.
Defined.

Lemma every_master_file_is_read_once_and_no_file_stops_the_run_witness :
  reads (gen_log (snd (generate (hw := test_hash_world) None)))
  = ["minted-images/../master-images/poseA.jpg";
     "minted-images/../master-images/notes.txt";
     "minted-images/../master-images/poseB.jpg"].
Proof.
  rewrite (proj1 (GenerateFacts.every_master_file_is_read_once_and_no_file_stops_the_run
                    (hw := test_hash_world) None)
             ["poseA.jpg"; "notes.txt"; "poseB.jpg"] None);
    reflexivity.
Defined.

Lemma written_hashes_are_the_generated_ones_witness :
  In (GenLogHash "poseB.jpg" "1110000000000000")
     (gen_log (snd (generate (hw := test_hash_world) None)))
  /\ obj_get (hashes (snd (generate (hw := test_hash_world) None)))
       "notes.txt" = None.
Proof.
  split; [|reflexivity].
  apply (proj1 (GenerateFacts.written_hashes_are_the_generated_ones
                  (hw := test_hash_world) None)).
  reflexivity.
Defined.

Lemma hashes_file_is_written_only_when_something_was_hashed_witness :
  fst (generate (hw := unreadable_world) (Some "kept")) = Normal tt
  /\ gen_world (snd (generate (hw := unreadable_world) (Some "kept")))
     = Some "kept"
  /\ hashes (snd (generate (hw := test_hash_world) None)) <> [].
Proof.
  destruct (GenerateFacts.hashes_file_is_written_only_when_something_was_hashed
              (hw := unreadable_world) (Some "kept")) as (_ & _ & Listed).
  destruct (Listed ["notes.txt"] (Some "kept") eq_refl) as (_ & Nothing).
  destruct (Nothing eq_refl) as (Done & Kept & _).
  split; [exact Done|]. split; [exact Kept|].
  apply (proj1 (proj2 (GenerateFacts.hashes_file_is_written_only_when_something_was_hashed
                         (hw := test_hash_world) None))).
  reflexivity.
Defined.

Lemma generated_store_matches_its_own_images_witness :
  announces_match
    (emitted (match_loop "3" "1110000000000000" (own_entries masterHashes)
                (start worldA))) = true.
Proof.
  apply (generated_store_matches_its_own_images
           (hw := test_hash_world) (io := test_io)
           None "poseB.jpg" "1110000000000000" "3" (start worldA));
    reflexivity.
Defined.

Lemma downloaded_item_is_skipped_witness :
  download_item (existingTokenIds ["token-5.jpg"; "notes.txt"]) (token "5")
    {| dl_world := (["token-5.jpg"; "notes.txt"], [token "5"]);
       newImagesDownloaded := 0; dl_trace := [] |}
  = {| dl_world := (["token-5.jpg"; "notes.txt"], [token "5"]);
       newImagesDownloaded := 0; dl_trace := [] |}.
Proof.
  apply (DownloadFacts.downloaded_item_is_skipped
           ["token-5.jpg"; "notes.txt"] (token "5")).
  - discriminate.
  - reflexivity.
  - simpl. auto.
Defined.

Lemma reported_downloads_are_the_saved_images_witness :
  match downloadNewImages 4 (["token-7.jpg"],
                             [token "5"; token "7"; token "9"]) with
  | Some (_, st) =>
      newImagesDownloaded st = List.length (saved_paths (dl_trace st))
  | None => False
  end.
Proof.
  destruct (downloadNewImages 4 (["token-7.jpg"],
                                 [token "5"; token "7"; token "9"]))
    as [[r st]|] eqn:E.
  - apply (DownloadCount.reported_downloads_are_the_saved_images _ _ _ _ E).
  - vm_compute in E. discriminate.
Defined.

(** The downloader on a directory holding the image of item 7: item 5 is
    downloaded, item 7 is skipped, item 9 fails, and one download is
    reported. *)
Example download_run :
  match downloadNewImages 4 (["token-7.jpg"],
                             [token "5"; token "7"; token "9"]) with
  | Some (r, st) =>
      r = Normal tt
      /\ newImagesDownloaded st = 1
      /\ saved_paths (dl_trace st) = ["minted-images/token-5.jpg"]
      /\ fst (dl_world st) = ["token-5.jpg"; "token-7.jpg"]
  | None => False
  end.
Proof. vm_compute. repeat split. Qed.

(** The generator on the directory of three entries. *)
Example generate_run :
  generate (hw := test_hash_world) None
  = (Normal tt,
     {| gen_world :=
          Some (JSON_stringify_object QuoteJSONString
                  [("poseA.jpg", "0000000000000000");
                   ("poseB.jpg", "1110000000000000")]);
        hashes := [("poseA.jpg", "0000000000000000");
                   ("poseB.jpg", "1110000000000000")];
        gen_log := gen_log (snd (generate (hw := test_hash_world) None)) |}).
Proof. reflexivity. Qed.

End ScriptFacts.
